(** * The structural value serializer of [shared-runtime.ts]

    A shallow embedding of [toJSON] (compiler/packages/sprout/src/shared-runtime.ts),
    the helper behind [Stringify], together with the part of [JSON.stringify]
    (ECMA-262, 25.5.2) that [toJSON] drives through its replacer callback.

    Runtime values live in an explicit heap so that reference identity, object
    graphs with cycles, the [seen] registry and the objects the replacer
    allocates are all represented as the program has them. *)

From Stdlib Require Import ZArith String Ascii List DecimalString DecimalNat Lia.
From stdpp Require Import base option list gmap strings.

(** ** Runtime values *)

(** Heap addresses: the identity of an object. *)
Abbreviation loc := nat.

(** Names of function bodies; what a body does when it is called is given by
    the [call] oracle of the section below. *)
Abbreviation fid := nat.

(** A JavaScript value.  Numbers are the integer-valued numbers below 10^21
    in magnitude, which [Number::toString] writes in plain decimal notation
    (their rendering is the only thing the serializer needs); a string is a
    sequence of one-byte code units. *)
Inductive value : Type :=
| VUndefined
| VNull
| VBool (b : bool)
| VNumber (z : Z)
| VString (s : string)
| VRef (l : loc).

(** A heap object.  An [OObject] lists its own enumerable string-keyed
    properties in property order, an [OArray] its elements, an [OMap] its
    entries and an [OSet] its elements in iteration order; an [OFunction]
    carries its declared parameter count ([.length]) and its body.  There are
    no prototypes, and of all objects only an [OObject] holds properties under
    arbitrary names, a [toJSON] method among them. *)
Inductive obj : Type :=
| OObject (fields : list (string * value))
| OArray (elems : list value)
| OMap (entries : list (value * value))
| OSet (elems : list value)
| OFunction (length : nat) (body : fid).

Abbreviation heap := (list obj).

(** [new]: the object is placed at the first unused address. *)
Definition alloc (h : heap) (o : obj) : loc * heap := (List.length h, h ++ [o]).

#[global] Instance value_eq_dec : EqDecision value.
Proof. solve_decision. Defined.

(** ** Text helpers *)

(** [String(n)] of a non-negative integer, as in a template literal. *)
Definition nat_to_string (n : nat) : string := NilZero.string_of_uint (Nat.to_uint n).

(** [Number::toString] on integer-valued numbers below 10^21 in magnitude
    (from there on JavaScript switches to exponent notation). *)
Definition Number_toString (z : Z) : string := NilZero.string_of_int (Z.to_int z).

Definition hex_digit (n : nat) : ascii :=
  nth n (list_ascii_of_string "0123456789abcdef") "0"%char.

(** One code unit of [QuoteJSONString] (ECMA-262, 25.5.2.3). *)
Definition quote_char (c : ascii) : string :=
  let n := nat_of_ascii c in
  if n =? 8 then "\b"
  else if n =? 9 then "\t"
  else if n =? 10 then "\n"
  else if n =? 12 then "\f"
  else if n =? 13 then "\r"
  else if n =? 34 then "\" +:+ String c ""
  else if n =? 92 then "\\"
  else if n <? 32 then
    "\u00" +:+ String (hex_digit (n / 16)) (String (hex_digit (n mod 16)) "")
  else String c "".

Fixpoint quote_body (s : string) : string :=
  match s with
  | EmptyString => ""
  | String c rest => quote_char c +:+ quote_body rest
  end.

Definition dquote : string := String (ascii_of_nat 34) "".

Definition QuoteJSONString (s : string) : string := dquote +:+ quote_body s +:+ dquote.

(** [Array.prototype.join] with a comma, as [JSON.stringify] uses it when no
    indentation is requested. *)
Definition join_comma (parts : list string) : string := String.concat "," parts.

(** ** Outcomes *)

Inductive error : Type :=
| InvocationFailure   (* a function or a toJSON method that was called threw *)
| CircularStructure   (* the TypeError of JSON.stringify on a cyclic structure *)
| DanglingReference.  (* an address outside the heap: not a runtime value *)

(** A computation either finishes, throws, or has not finished within the
    recursion budget it was given.  A traversal that exceeds every budget
    never returns; an engine, whose stack is finite, ends it with a
    RangeError. *)
Inductive outcome (A : Type) : Type :=
| Done (a : A)
| Throws (e : error)
| OutOfFuel.
Arguments Done {A} a.
Arguments Throws {A} e.
Arguments OutOfFuel {A}.

#[global] Instance outcome_bind : MBind outcome := fun A B k m =>
  match m with
  | Done a => k a
  | Throws e => Throws e
  | OutOfFuel => OutOfFuel
  end.

(** What calling a function does: it returns a value and leaves a heap, or
    it throws. *)
Inductive call_result : Type :=
| Returns (r : value) (h : heap)
| Raises.

(** The traversal state: the heap, and the [seen] map of [toJSON].  The keys
    of [seen] are the values whose [typeof] is ["object"]: [None] stands for
    [null], [Some l] for the object at address [l]. *)
Record state : Type := State { st_heap : heap; st_seen : gmap (option loc) nat }.

(** [Get(holder, key)] for a property name, [undefined] when absent. *)
Fixpoint assoc (k : string) (fs : list (string * value)) : value :=
  match fs with
  | [] => VUndefined
  | (k', v) :: rest => if String.eqb k k' then v else assoc k rest
  end.

Definition GetProp (h : heap) (l : loc) (k : string) : value :=
  match h !! l with
  | Some (OObject fs) => assoc k fs
  | _ => VUndefined
  end.

(** [Get(holder, index)] for an array index. *)
Definition GetIndex (h : heap) (l : loc) (i : nat) : value :=
  match h !! l with
  | Some (OArray es) => nth i es VUndefined
  | _ => VUndefined
  end.

(** [Array.from(val.entries())]: one fresh two-element array per entry, then
    the array that holds them. *)
Fixpoint alloc_entries (h : heap) (entries : list (value * value)) : list value * heap :=
  match entries with
  | [] => ([], h)
  | (k, v) :: rest =>
      let '(p, h1) := alloc h (OArray [k; v]) in
      let '(ps, h2) := alloc_entries h1 rest in
      (VRef p :: ps, h2)
  end.

(** [GetV(val, "toJSON")] when it is callable: the body of the [toJSON]
    method of [val].  In this heap only plain objects carry named
    properties. *)
Definition toJSON_method (h : heap) (val : value) : option fid :=
  match val with
  | VRef l =>
      match h !! l with
      | Some (OObject fs) =>
          match assoc "toJSON" fs with
          | VRef f =>
              match h !! f with
              | Some (OFunction _ body) => Some body
              | _ => None
              end
          | _ => None
          end
      | _ => None
      end
  | _ => None
  end.

Section Serializer.

(** The behaviour of function bodies: [call body h this args] is what the
    body does when it is called on heap [h] with that [this] value and those
    arguments. *)
Variable call : fid -> heap -> value -> list value -> call_result.

(** The flag of one [toJSON] call. *)
Variable invokeFns : bool.

(** The replacer callback of [toJSON]:
<<
    (_key, val) => {
      if (typeof val === "function") {
        if (val.length === 0 && invokeFns) return { kind: "Function", result: val() };
        else return `[[ function params=${val.length} ]]`;
      } else if (typeof val === "object") {
        let id = seen.get(val);
        if (id != null) return `[[ cyclic ref *${id} ]]`;
        else if (val instanceof Map) return { kind: "Map", value: Array.from(val.entries()) };
        else if (val instanceof Set) return { kind: "Set", value: Array.from(val.values()) };
        seen.set(val, seen.size);
      }
      return val;
    }
>>
    [typeof null] is ["object"], so [null] takes the second branch too. *)
Definition object_branch (st : state) (key : option loc) (val : value) (o : option obj)
  : outcome (value * state) :=
  let h := st_heap st in
  let seen := st_seen st in
  match seen !! key with
  | Some id => Done (VString ("[[ cyclic ref *" +:+ nat_to_string id +:+ " ]]"), st)
  | None =>
      match o with
      | Some (OMap entries) =>
          let '(ps, h1) := alloc_entries h entries in
          let '(a, h2) := alloc h1 (OArray ps) in
          let '(w, h3) := alloc h2 (OObject [("kind", VString "Map"); ("value", VRef a)]) in
          Done (VRef w, State h3 seen)
      | Some (OSet elems) =>
          let '(a, h1) := alloc h (OArray elems) in
          let '(w, h2) := alloc h1 (OObject [("kind", VString "Set"); ("value", VRef a)]) in
          Done (VRef w, State h2 seen)
      | _ => Done (val, State h (<[key := size seen]> seen))
      end
  end.

Definition replacer (st : state) (val : value) : outcome (value * state) :=
  match val with
  | VRef l =>
      match st_heap st !! l with
      | None => Throws DanglingReference
      | Some (OFunction length body) =>
          if (length =? 0) && invokeFns then
            match call body (st_heap st) VUndefined [] with
            | Returns r h1 =>
                let '(w, h2) :=
                  alloc h1 (OObject [("kind", VString "Function"); ("result", r)]) in
                Done (VRef w, State h2 (st_seen st))
            | Raises => Throws InvocationFailure
            end
          else
            Done (VString ("[[ function params=" +:+ nat_to_string length +:+ " ]]"), st)
      | Some o => object_branch st (Some l) val (Some o)
      end
  | VNull => object_branch st None val None
  | _ => Done (val, st)
  end.

(** ** [JSON.stringify] with a replacer function and no indentation *)

(** Step 2 of [SerializeJSONProperty] (ECMA-262, 25.5.2.2), which comes
    before the replacer: when the value read from the holder is an object
    with a callable [toJSON] property, the value is replaced by
    [value.toJSON(key)]. *)
Definition call_toJSON (st : state) (key : string) (val : value) : outcome (value * state) :=
  match toJSON_method (st_heap st) val with
  | Some body =>
      match call body (st_heap st) val [VString key] with
      | Returns r h1 => Done (r, State h1 (st_seen st))
      | Raises => Throws InvocationFailure
      end
  | None => Done (val, st)
  end.

(** The loop of [SerializeJSONObject] over the property names [K] collected
    on entry; each value is read with [Get] when its turn comes and goes
    through step 2 under its key, [rec] does the rest; a property whose
    serialization is [undefined] is left out. *)
Fixpoint serialize_properties
    (rec : state -> value -> outcome (option string * state))
    (l : loc) (K : list string) (st : state) : outcome (list string * state) :=
  match K with
  | [] => Done ([], st)
  | P :: K' =>
      '(v, st0) ← call_toJSON st P (GetProp (st_heap st) l P);
      '(strP, st1) ← rec st0 v;
      '(partial, st2) ← serialize_properties rec l K' st1;
      Done (match strP with
            | Some s => (QuoteJSONString P +:+ ":" +:+ s) :: partial
            | None => partial
            end, st2)
  end.

(** The loop of [SerializeJSONArray] over the indices below the length read
    on entry; an element whose serialization is [undefined] becomes [null]. *)
Fixpoint serialize_elements
    (rec : state -> value -> outcome (option string * state))
    (l : loc) (indices : list nat) (st : state) : outcome (list string * state) :=
  match indices with
  | [] => Done ([], st)
  | i :: rest =>
      '(v, st0) ← call_toJSON st (nat_to_string i) (GetIndex (st_heap st) l i);
      '(strP, st1) ← rec st0 v;
      '(partial, st2) ← serialize_elements rec l rest st1;
      Done (default "null" strP :: partial, st2)
  end.

(** [SerializeJSONProperty] from its step 3 on: its callers, the two loops
    and [toJSON] itself, have read the value from its holder (step 1) and
    put it through [call_toJSON] (step 2).  [stack] is the list of objects
    being serialized, which [JSON.stringify] consults to reject cyclic
    structures. *)
Fixpoint SerializeJSONProperty (fuel : nat) (stack : list loc) (st : state) (val : value)
  : outcome (option string * state) :=
  match fuel with
  | O => OutOfFuel
  | S fuel' =>
      '(v, st1) ← replacer st val;
      match v with
      | VUndefined => Done (None, st1)
      | VNull => Done (Some "null", st1)
      | VBool true => Done (Some "true", st1)
      | VBool false => Done (Some "false", st1)
      | VString s => Done (Some (QuoteJSONString s), st1)
      | VNumber z => Done (Some (Number_toString z), st1)
      | VRef l =>
          match st_heap st1 !! l with
          | None => Throws DanglingReference
          | Some (OFunction _ _) => Done (None, st1)
          | Some (OArray es) =>
              if bool_decide (l ∈ stack) then Throws CircularStructure
              else
                '(partial, st2) ← serialize_elements (SerializeJSONProperty fuel' (l :: stack)) l
                    (seq 0 (List.length es)) st1;
                Done (Some ("[" +:+ join_comma partial +:+ "]"), st2)
          | Some o =>
              if bool_decide (l ∈ stack) then Throws CircularStructure
              else
                let K := match o with OObject fs => fs.*1 | _ => [] end in
                '(partial, st2) ← serialize_properties (SerializeJSONProperty fuel' (l :: stack)) l K st1;
                Done (Some ("{" +:+ join_comma partial +:+ "}"), st2)
          end
      end
  end.

(** [toJSON(value, invokeFns)]: a fresh [seen], then [JSON.stringify(value,
    replacer)].  The result is a string or [undefined] ([None]); the heap the
    call leaves behind is returned with it, the registry is not. *)
Definition toJSON_fuel (fuel : nat) (h : heap) (value : value)
  : outcome (option string * heap) :=
  let seen : gmap (option loc) nat := ∅ in
  '(v, st0) ← call_toJSON (State h seen) "" value;
  '(r, st) ← SerializeJSONProperty fuel [] st0 v;
  Done (r, st_heap st).

(** One whole visit of a value under a key: steps 2 and following. *)
Definition visit (fuel : nat) (stack : list loc) (st : state) (key : string) (val : value)
  : outcome (option string * state) :=
  '(v, st0) ← call_toJSON st key val;
  SerializeJSONProperty fuel stack st0 v.

End Serializer.

(** [toJSON] with its default argument [invokeFns = false] made explicit. *)
Definition toJSON (call : fid -> heap -> value -> list value -> call_result)
    (fuel : nat) (h : heap)
    (value : value) (invokeFns : bool) : outcome (option string * heap) :=
  toJSON_fuel call invokeFns fuel h value.

(** A world without callable bodies: every call throws. *)
Definition no_calls : fid -> heap -> value -> list value -> call_result :=
  fun _ _ _ _ => Raises.

(** The value a finished call returned, without the heap it left. *)
Definition result_of {A B} (o : outcome (A * B)) : outcome A :=
  match o with
  | Done (a, _) => Done a
  | Throws e => Throws e
  | OutOfFuel => OutOfFuel
  end.

(** Expected outputs are written with ['] standing for the double quote. *)
Fixpoint text (s : string) : string :=
  match s with
  | EmptyString => EmptyString
  | String c rest => String (if Ascii.eqb c "'"%char then ascii_of_nat 34 else c) (text rest)
  end.

(** ** Well-formed inputs *)

(** A value of a heap with [n] objects: a reference points inside the heap. *)
Definition closed_value (n : nat) (v : value) : Prop :=
  match v with
  | VRef l => l < n
  | _ => True
  end.

Definition closed_obj (n : nat) (o : obj) : Prop :=
  match o with
  | OObject fs => Forall (closed_value n) fs.*2
  | OArray es => Forall (closed_value n) es
  | OMap entries => Forall (closed_value n) entries.*1 /\ Forall (closed_value n) entries.*2
  | OSet es => Forall (closed_value n) es
  | OFunction _ _ => True
  end.

(** An object graph: every reference held by an object is an object. *)
Definition closed_heap (h : heap) : Prop := Forall (closed_obj (List.length h)) h.

(** The number of objects of the heap that [seen] has not recorded yet. *)
Definition unseen (h : heap) (seen : gmap (option loc) nat) : nat :=
  List.length (filter (fun l => seen !! Some l = None) (seq 0 (List.length h))).

(** The text of the two placeholders. *)
Definition cyclic_marker (id : nat) : string := "[[ cyclic ref *" +:+ nat_to_string id +:+ " ]]".
Definition function_marker (n : nat) : string := "[[ function params=" +:+ nat_to_string n +:+ " ]]".

(** A primitive other than [null], and the literal it is written as
    ([undefined] has none). *)
Definition scalar (v : value) : Prop :=
  match v with
  | VNull | VRef _ => False
  | _ => True
  end.

Definition scalar_text (v : value) : option string :=
  match v with
  | VBool true => Some "true"
  | VBool false => Some "false"
  | VNumber z => Some (Number_toString z)
  | VString s => Some (QuoteJSONString s)
  | _ => None
  end.

(** The member text of a field of an object [a] whose fields are scalars or
    references to [a] itself, once [a] has id 0. *)
Definition self_member (kv : string * value) : option string :=
  match kv.2 with
  | VRef _ => Some (QuoteJSONString kv.1 +:+ ":" +:+ text "'[[ cyclic ref *0 ]]'")
  | v => (fun s => QuoteJSONString kv.1 +:+ ":" +:+ s) <$> scalar_text v
  end.

(** ** Moving the addresses of allocated objects

    A second call of [toJSON] runs on the heap the first call left, where the
    objects the first call allocated still sit: what the second call
    allocates lands [k] addresses further.  [shift_loc] is that renaming: the
    [n] objects of the graph stay, later addresses move up by [k]. *)
Section Shift.

Variables n k : nat.

Definition shift_loc (l : loc) : loc := if l <? n then l else l + k.

Definition shift_value (v : value) : value :=
  match v with
  | VRef l => VRef (shift_loc l)
  | _ => v
  end.

Definition shift_obj (o : obj) : obj :=
  match o with
  | OObject fs => OObject (prod_map id shift_value <$> fs)
  | OArray es => OArray (shift_value <$> es)
  | OMap entries => OMap (prod_map shift_value shift_value <$> entries)
  | OSet es => OSet (shift_value <$> es)
  | OFunction N body => OFunction N body
  end.

(** The heap with the [k] objects of [g] inserted after the graph. *)
Definition shift_heap (g : heap) (h : heap) : heap :=
  (shift_obj <$> take n h) ++ g ++ (shift_obj <$> drop n h).

Definition shift_state (g : heap) (st : state) : state :=
  State (shift_heap g (st_heap st)) (kmap (fmap (M := option) shift_loc) (st_seen st)).

Definition shift_outcome {A} (g : heap) (o : outcome (A * state)) : outcome (A * state) :=
  match o with
  | Done (a, st) => Done (a, shift_state g st)
  | Throws e => Throws e
  | OutOfFuel => OutOfFuel
  end.

(** The same for what the replacer returns. *)
Definition shift_replaced (g : heap) (o : outcome (value * state)) : outcome (value * state) :=
  match o with
  | Done (v, st) => Done (shift_value v, shift_state g st)
  | Throws e => Throws e
  | OutOfFuel => OutOfFuel
  end.

(** The same for what a call does. *)
Definition shift_call (g : heap) (c : call_result) : call_result :=
  match c with
  | Returns r h => Returns (shift_value r) (shift_heap g h)
  | Raises => Raises
  end.

(** A visit commutes with the renaming, on the heaps that satisfy [Inv]. *)
Definition commutes (g : heap) (Inv : heap -> Prop)
    (rec rec' : state -> value -> outcome (option string * state)) : Prop :=
  forall st v,
    n <= List.length (st_heap st) ->
    Inv (st_heap st) ->
    rec' (shift_state g st) (shift_value v) = shift_outcome g (rec st v).

End Shift.

(** A visit that leaves every object of the heap where it was, and keeps
    [Inv]. *)
Definition keeps (Inv : heap -> Prop)
    (rec : state -> value -> outcome (option string * state)) : Prop :=
  forall st v r st',
    rec st v = Done (r, st') -> Inv (st_heap st) ->
    st_heap st `prefix_of` st_heap st' /\ Inv (st_heap st').

(** The functions that a traversal can call on the heap [h]: the functions
    without parameters when the flag is set, and the [toJSON] methods. *)
Definition invocable (invokeFns : bool) (h : heap) (body : fid) : Prop :=
  (invokeFns = true /\ exists l, h !! l = Some (OFunction 0 body))
  \/ (exists l, toJSON_method h (VRef l) = Some body).

(** All of them are among the functions [P]. *)
Definition calls_in (invokeFns : bool) (P : fid -> Prop) (h : heap) : Prop :=
  forall body, invocable invokeFns h body -> P body.

(** The functions [P] are free of side effects: a call may build new
    objects, the objects that existed before it are left as they were; and
    the functions that can be called on the heap it leaves are functions of
    [P] again.  Nothing is asked of the functions outside [P]. *)
Definition side_effect_free (call : fid -> heap -> value -> list value -> call_result)
    (invokeFns : bool) (P : fid -> Prop) : Prop :=
  forall body h this args r h',
    P body -> calls_in invokeFns P h ->
    call body h this args = Returns r h' ->
    h `prefix_of` h' /\ calls_in invokeFns P h'.

(** The functions [P] are deterministic in what they can observe: a body
    reaches objects through references and cannot tell at which address an
    object sits, so it behaves in the same way when the objects allocated
    after the first [n] sit [k] addresses further, with [k] objects it has
    no reference to in between. *)
Definition address_blind (call : fid -> heap -> value -> list value -> call_result)
    (P : fid -> Prop) (n : nat) : Prop :=
  forall k g body h this args,
    P body ->
    List.length g = k -> n <= List.length h ->
    call body (shift_heap n k g h) (shift_value n k this) (shift_value n k <$> args)
    = shift_call n k g (call body h this args).

(** ** Graphs on which the traversal ends *)

(** The calls that a traversal of the graph [h0] makes: a function without
    parameters is invoked, with no [this] and no argument, when the flag is
    set; a [toJSON] method is called on its object with the key. *)
Definition called (invokeFns : bool) (h0 : heap) (body : fid) (this : value)
    (args : list value) : Prop :=
  (invokeFns = true /\ this = VUndefined /\ args = []
   /\ exists l, h0 !! l = Some (OFunction 0 body))
  \/ (exists l key, this = VRef l /\ args = [VString key]
                    /\ toJSON_method h0 (VRef l) = Some body).

(** The functions that get called compute a value of the graph [h0] and
    touch nothing: on [h0] and on every heap that extends it, such a call
    returns [ret body this args] and leaves the heap as it is.  Nothing is
    asked of the other functions. *)
Definition returns_values (call : fid -> heap -> value -> list value -> call_result)
    (invokeFns : bool) (h0 : heap) (ret : fid -> value -> list value -> value) : Prop :=
  forall body this args h,
    called invokeFns h0 body this args ->
    h0 `prefix_of` h ->
    call body h this args = Returns (ret body this args) h
    /\ closed_value (List.length h0) (ret body this args).

(** The value that reaches the replacer when [val] is visited under [key]:
    [val.toJSON(key)] when there is such a method, [val] otherwise. *)
Definition effective (h0 : heap) (ret : fid -> value -> list value -> value)
    (key : string) (val : value) : value :=
  match toJSON_method h0 val with
  | Some body => ret body val [VString key]
  | None => val
  end.

(** Plain objects and arrays are recorded in [seen] when the replacer meets
    them, so the traversal enters each of them once.  A Map, a Set and a
    function that is invoked are not recorded: the replacer hands on what
    they hold or return each time it meets them; and so does an object with
    a [toJSON] method before the replacer sees it.  [rank] bounds how many
    such hand-overs can follow one another: [arank] is the rank of a value
    given to the replacer, [srank] the rank of a value read from its
    holder. *)
Definition arank (invokeFns : bool) (h0 : heap) (rank : loc -> nat) (v : value) : nat :=
  match v with
  | VRef l =>
      match h0 !! l with
      | Some (OMap _) | Some (OSet _) => S (rank l)
      | Some (OFunction 0 _) => if invokeFns then S (rank l) else 0
      | _ => 0
      end
  | _ => 0
  end.

Definition srank (invokeFns : bool) (h0 : heap) (rank : loc -> nat) (v : value) : nat :=
  match toJSON_method h0 v, v with
  | Some _, VRef l => S (rank l)
  | _, _ => arank invokeFns h0 rank v
  end.

(** What a Map or a Set holds, what an invoked function returns and what a
    [toJSON] method returns has a rank no higher than the rank of the
    object itself: no chain of hand-overs comes back to where it started. *)
Definition well_ranked (invokeFns : bool) (h0 : heap)
    (ret : fid -> value -> list value -> value) (rank : loc -> nat) : Prop :=
  forall l,
    match h0 !! l with
    | Some (OMap entries) =>
        Forall (fun v => srank invokeFns h0 rank v <= rank l) (entries.*1 ++ entries.*2)
    | Some (OSet es) => Forall (fun v => srank invokeFns h0 rank v <= rank l) es
    | Some (OFunction N body) =>
        N = 0 -> invokeFns = true ->
        srank invokeFns h0 rank (ret body VUndefined []) <= rank l
    | Some (OObject fs) =>
        forall body key,
          toJSON_method h0 (VRef l) = Some body ->
          arank invokeFns h0 rank (ret body (VRef l) [VString key]) <= rank l
    | _ => True
    end.

(** What holds of the objects being serialized (the stack of
    [JSON.stringify]) during such a traversal: each of them is in [seen],
    or is a wrapper object that the replacer built. *)
Definition stack_inv (n0 : nat) (stack : list loc) (st : state) : Prop :=
  forall l, l ∈ stack ->
    l < List.length (st_heap st)
    /\ (is_Some (st_seen st !! Some l)
        \/ (n0 <= l /\ exists fs, st_heap st !! l = Some (OObject fs))).

(** A state of a traversal of the graph [h0] with at most [u] objects of
    the graph left to record. *)
Definition traversing (h0 : heap) (stack : list loc) (u : nat) (st : state) : Prop :=
  h0 `prefix_of` st_heap st
  /\ stack_inv (List.length h0) stack st
  /\ unseen h0 (st_seen st) <= u.

(** The state [st'] comes after [st]: objects were added, [seen] grew. *)
Definition later (st st' : state) : Prop :=
  st_heap st `prefix_of` st_heap st' /\ st_seen st ⊆ st_seen st'.

(** A computation that returns whenever its recursion budget is large
    enough, always with the same result, which satisfies [Q]. *)
Definition terminates (run : nat -> outcome (option string * state)) (st : state)
    (Q : option string -> Prop) : Prop :=
  exists r st' F,
    (forall fuel, F <= fuel -> run fuel = Done (r, st')) /\ later st st' /\ Q r.

(** The same for the loops, which return the texts of the members. *)
Definition loop_terminates (run : nat -> outcome (list string * state)) (st : state) : Prop :=
  exists parts st' F,
    (forall fuel, F <= fuel -> run fuel = Done (parts, st')) /\ later st st'.

(** Every visit of a value of the graph [h0] ends, from the replacer on
    when the rank of the value is within [m], as a whole when the rank of
    what its holder holds is; only [undefined] has no text. *)
Definition visits_end (call : fid -> heap -> value -> list value -> call_result)
    (invokeFns : bool) (h0 : heap) (ret : fid -> value -> list value -> value)
    (rank : loc -> nat) (u m : nat) : Prop :=
  forall stack st key v,
    traversing h0 stack u st ->
    closed_value (List.length h0) v ->
    (2 * arank invokeFns h0 rank v <= m ->
     terminates (fun fuel => SerializeJSONProperty call invokeFns fuel stack st v) st
       (fun r => r = None -> v = VUndefined))
    /\ (2 * srank invokeFns h0 rank v + 1 <= m ->
        terminates (fun fuel => visit call invokeFns fuel stack st key v) st
          (fun r => r = None -> effective h0 ret key v = VUndefined)).

(** What the replacer adds to the heap when it invokes nothing: arrays, and
    wrapper objects without a [toJSON] property. *)
Definition built_by_replacer (o : obj) : Prop :=
  match o with
  | OArray _ => True
  | OObject fs => forall f, assoc "toJSON" fs <> VRef f
  | _ => False
  end.

(** No object of the heap has a callable [toJSON] property. *)
Definition method_free (h : heap) : Prop :=
  forall l, toJSON_method h (VRef l) = None.

(** ** The registry *)

(** The ids in [seen] are below its size, and no id is given twice. *)
Definition registry_ok (seen : gmap (option loc) nat) : Prop :=
  (forall key id, seen !! key = Some id -> id < size seen)
  /\ (forall key1 key2 id,
        seen !! key1 = Some id -> seen !! key2 = Some id -> key1 = key2).

(** The two-element arrays of [Array.from(map.entries())]. *)
Definition pair_arrays (entries : list (value * value)) : list obj :=
  (fun kv => OArray [kv.1; kv.2]) <$> entries.

(** No object of the heap is a function without parameters. *)
Definition no_nullary_function (h : heap) : Prop :=
  Forall (fun o => forall body, o <> OFunction 0 body) h.

(** ** The mutation helpers: [mutate], [setProperty], [shallowCopy]

    These helpers give objects new named properties.  A plain object keeps
    its properties in [OObject]; the named properties given to an array, a
    Map or a Set (which [JSON.stringify] and the replacer never read) are
    kept beside the heap, together with the set of frozen objects
    ([noAliasObject] is one). *)
Record store : Type :=
  Store { objs : heap; named : gmap loc (list (string * value)); frozen : gset loc }.

(** How a helper ends: it returns, it throws a TypeError, it was handed an
    address outside the heap, or its loop has not finished within the
    budget. *)
Inductive completion (A : Type) : Type :=
| Normal (a : A)
| TypeError
| Stuck
| Unfinished.
Arguments Normal {A} a.
Arguments TypeError {A}.
Arguments Stuck {A}.
Arguments Unfinished {A}.

#[global] Instance completion_bind : MBind completion := fun A B k m =>
  match m with
  | Normal a => k a
  | TypeError => TypeError
  | Stuck => Stuck
  | Unfinished => Unfinished
  end.

(** [typeof v]. *)
Definition typeof (h : heap) (v : value) : string :=
  match v with
  | VUndefined => "undefined"
  | VNull => "object"
  | VBool _ => "boolean"
  | VNumber _ => "number"
  | VString _ => "string"
  | VRef l =>
      match h !! l with
      | Some (OFunction _ _) => "function"
      | _ => "object"
      end
  end.

Definition named_props (st : store) (l : loc) : list (string * value) :=
  default [] (named st !! l).

(** The index properties of an array. *)
Definition index_props (es : list value) : list (string * value) :=
  imap (fun i e => (nat_to_string i, e)) es.

(** The own enumerable string-keyed properties of an object, in property
    order. *)
Definition own_enumerable (st : store) (l : loc) : list (string * value) :=
  match objs st !! l with
  | Some (OObject fs) => fs
  | Some (OArray es) => index_props es ++ named_props st l
  | Some _ => named_props st l
  | None => []
  end.

(** [Object.hasOwn(arg, key)] for an object that is not a function: its
    enumerable properties, and [length] for an array. *)
Definition hasOwn (st : store) (l : loc) (key : string) : bool :=
  match objs st !! l with
  | Some (OArray _) =>
      bool_decide (key ∈ (own_enumerable st l).*1) || String.eqb key "length"
  | _ => bool_decide (key ∈ (own_enumerable st l).*1)
  end.

(** [arg[key] = v] in strict mode, for a key that [arg] does not own and
    that is not an array index: a new property, last in property order, or a
    TypeError when [arg] is frozen. *)
Definition add_property (st : store) (l : loc) (key : string) (v : value)
  : completion store :=
  if bool_decide (l ∈ frozen st) then TypeError
  else
    match objs st !! l with
    | Some (OObject fs) =>
        Normal (Store (<[l := OObject (fs ++ [(key, v)])]> (objs st)) (named st) (frozen st))
    | Some _ =>
        Normal (Store (objs st) (<[l := named_props st l ++ [(key, v)]]> (named st))
                      (frozen st))
    | None => Stuck
    end.

(** The key tried at iteration [count]: ["wat" + count]. *)
Definition wat (count : nat) : string := "wat" +:+ nat_to_string count.

(** The loop of [mutate]:
<<
    while (true) {
      key = "wat" + count;
      if (!Object.hasOwn(arg, key)) { arg[key] = "joe"; return; }
      count++;
    }
>> *)
Fixpoint mutate_loop (fuel : nat) (st : store) (l : loc) (count : nat) : completion store :=
  match fuel with
  | O => Unfinished
  | S fuel' =>
      let key := wat count in
      if negb (hasOwn st l key) then add_property st l key (VString "joe")
      else mutate_loop fuel' st l (S count)
  end.

(** [mutate(arg)].  The guard is [typeof arg === null || typeof arg !==
    "object"]; its first half compares a string with [null] and is never
    true, so [null], whose [typeof] is ["object"], reaches
    [Object.hasOwn(null, key)], which throws. *)
Definition mutate (fuel : nat) (st : store) (arg : value) : completion store :=
  if negb (String.eqb (typeof (objs st) arg) "object") then Normal st
  else
    match arg with
    | VRef l => mutate_loop fuel st l 0
    | _ => TypeError
    end.

(** [mutateAndReturn(arg)] and [mutateAndReturnNewValue(arg)]. *)
Definition mutateAndReturn (fuel : nat) (st : store) (arg : value)
  : completion (value * store) :=
  st' ← mutate fuel st arg; Normal (arg, st').

Definition mutateAndReturnNewValue (fuel : nat) (st : store) (arg : value)
  : completion (value * store) :=
  st' ← mutate fuel st arg; Normal (VString "hello!", st').

(** The loop of [setProperty], which assigns [property] instead of ["joe"]. *)
Fixpoint setProperty_loop (fuel : nat) (st : store) (l : loc) (property : value)
    (count : nat) : completion store :=
  match fuel with
  | O => Unfinished
  | S fuel' =>
      let key := wat count in
      if negb (hasOwn st l key) then add_property st l key property
      else setProperty_loop fuel' st l property (S count)
  end.

(** [setProperty(arg, property)]: it returns [arg] on every path. *)
Definition setProperty (fuel : nat) (st : store) (arg property : value)
  : completion (value * store) :=
  if negb (String.eqb (typeof (objs st) arg) "object") then Normal (arg, st)
  else
    match arg with
    | VRef l => st' ← setProperty_loop fuel st l property 0; Normal (arg, st')
    | _ => TypeError
    end.

(** The index properties of a string, one per code unit (one byte each
    here). *)
Definition string_props (s : string) : list (string * value) :=
  imap (fun i c => (nat_to_string i, VString (String c EmptyString)))
       (list_ascii_of_string s).

(** What [Object.assign] copies from a source: nothing from [null],
    [undefined], a boolean or a number. *)
Definition assign_source (st : store) (v : value) : list (string * value) :=
  match v with
  | VRef l => own_enumerable st l
  | VString s => string_props s
  | _ => []
  end.

(** [shallowCopy(obj)], that is [Object.assign({}, obj)]. *)
Definition shallowCopy (st : store) (obj : value) : value * store :=
  let '(l, h) := alloc (objs st) (OObject (assign_source st obj)) in
  (VRef l, Store h (named st) (frozen st)).

(** Side tables that speak of objects of the heap only. *)
Definition store_wf (st : store) : Prop :=
  (forall l, l ∈ frozen st -> l < List.length (objs st))
  /\ (forall l, is_Some (named st !! l) -> l < List.length (objs st)).

(** [mutate] applied [k] times in a row. *)
Fixpoint mutate_times (k fuel : nat) (st : store) (arg : value) : completion store :=
  match k with
  | O => Normal st
  | S k' => st' ← mutate_times k' fuel st arg; mutate fuel st' arg
  end.

(** ** [Stringify] and [createHookWrapper] *)

(** [ToBoolean], which decides [val.length === 0 && invokeFns] when the flag
    is not a boolean. *)
Definition ToBoolean (v : value) : bool :=
  match v with
  | VUndefined | VNull => false
  | VBool b => b
  | VNumber z => negb (z =? 0)%Z
  | VString s => negb (String.eqb s EmptyString)
  | VRef _ => true
  end.

(** [props?.shouldInvokeFns]: [undefined] for [null] and [undefined], the
    property otherwise ([undefined] when there is none). *)
Definition shouldInvokeFns (st : store) (props : value) : value :=
  match props with
  | VRef l => assoc "shouldInvokeFns" (own_enumerable st l)
  | _ => VUndefined
  end.

(** [React.createElement(type, null, child)], as far as the helpers go: the
    element type and its only child, a string or [undefined]. *)
Record element : Type := Element { el_type : string; el_child : option string }.

(** [Stringify(props)].  An [undefined] flag falls back on the default
    [false] of [toJSON], any other value is used for its truthiness. *)
Definition Stringify (call : fid -> heap -> value -> list value -> call_result) (fuel : nat) (st : store)
    (props : value) : outcome (element * heap) :=
  '(r, h) ← toJSON call fuel (objs st) props (ToBoolean (shouldInvokeFns st props));
  Done (Element "div" r, h).

(** The component [createHookWrapper(useMaybeHook)] returns: it calls the
    hook and hands [{ result, shouldInvokeFns: true }] to [Stringify]. *)
Definition createHookWrapper (useMaybeHook : store -> value -> outcome (value * store))
    (call : fid -> heap -> value -> list value -> call_result) (fuel : nat) (st : store) (props : value)
  : outcome (element * heap) :=
  '(result, st1) ← useMaybeHook st props;
  let '(w, h) :=
    alloc (objs st1) (OObject [("result", result); ("shouldInvokeFns", VBool true)]) in
  Stringify call fuel (Store h (named st1) (frozen st1)) (VRef w).

(** ** Worked examples of the specification *)

(** C7. For [x = {}] and [y = {}], [toJSON([x, y])] is [[{},{}]]: the two
    distinct empty objects are both written out, neither is taken for a
    second visit of the other. *)
Theorem distinct_empty_objects_not_conflated :
  forall call invokeFns fuel,
    result_of (toJSON call (3 + fuel) [OArray [VRef 1; VRef 2]; OObject []; OObject []] (VRef 0) invokeFns)
    = Done (Some "[{},{}]").
Proof. intros call [] fuel; vm_compute; reflexivity. Qed.

(** C9. A Map with the single entry [["k", 1]] serializes to exactly
    [{"kind":"Map","value":[["k",1]]}] and a Set with elements [1, 2] to
    exactly [{"kind":"Set","value":[1,2]}]; with two entries or elements the
    output lists them in iteration order. *)
Theorem map_and_set_reexpressed :
  forall call invokeFns fuel,
    result_of (toJSON call (4 + fuel) [OMap [(VString "k", VNumber 1)]] (VRef 0) invokeFns)
      = Done (Some (text "{'kind':'Map','value':[['k',1]]}"))
    /\ result_of (toJSON call (4 + fuel) [OSet [VNumber 1; VNumber 2]] (VRef 0) invokeFns)
      = Done (Some (text "{'kind':'Set','value':[1,2]}"))
    /\ result_of (toJSON call (4 + fuel) [OMap [(VString "b", VNumber 2); (VString "a", VNumber 1)]]
                    (VRef 0) invokeFns)
      = Done (Some (text "{'kind':'Map','value':[['b',2],['a',1]]}"))
    /\ result_of (toJSON call (4 + fuel) [OSet [VNumber 2; VNumber 1]] (VRef 0) invokeFns)
      = Done (Some (text "{'kind':'Set','value':[2,1]}")).
Proof. intros call [] fuel; vm_compute; repeat split; reflexivity. Qed.

(** C5 as stated fails: in [toJSON({a: shared, b: shared})] with
    [shared = {v:1}] the output is not the one with [cyclic ref *0] in [b]. *)
Lemma shared_subobject_is_not_id_0 :
  ~ (exists fuel,
       result_of (toJSON no_calls fuel
                    [OObject [("a", VRef 1); ("b", VRef 1)]; OObject [("v", VNumber 1)]]
                    (VRef 0) false)
       = Done (Some (text "{'a':{'v':1},'b':'[[ cyclic ref *0 ]]'}"))).
Proof.
  intros [fuel H].
  destruct fuel as [|[|[|fuel]]]; vm_compute in H; discriminate.
Qed.

(** C5, amended. In [toJSON({a: shared, b: shared})] with [shared = {v:1}]
    the enclosing object is the first composite entered and takes id 0;
    [shared] takes id 1 at its first visit, where it is written out as
    [{"v":1}], and its second visit is written as ["[[ cyclic ref *1 ]]"]. *)
Theorem shared_subobject_marker :
  forall call invokeFns fuel,
    result_of (toJSON call (3 + fuel)
                 [OObject [("a", VRef 1); ("b", VRef 1)]; OObject [("v", VNumber 1)]]
                 (VRef 0) invokeFns)
    = Done (Some (text "{'a':{'v':1},'b':'[[ cyclic ref *1 ]]'}")).
Proof. intros call [] fuel; vm_compute; reflexivity. Qed.

(** C4 at a failing input: [toJSON([null, null])] writes the second [null]
    as a cyclic-reference marker, because the replacer's [typeof val ===
    "object"] branch also takes [null] and records it in [seen]. *)
Theorem second_null_becomes_marker :
  forall call invokeFns fuel,
    result_of (toJSON call (2 + fuel) [OArray [VNull; VNull]] (VRef 0) invokeFns)
    = Done (Some (text "[null,'[[ cyclic ref *1 ]]']")).
Proof. intros call [] fuel; vm_compute; reflexivity. Qed.

(** C2 at a failing input: for [m = new Map([["k", 1]])], [toJSON([m, m])]
    writes [m] in full at both positions: the Map branch of the replacer
    returns before [seen.set], so a Map is never found in [seen].  A plain
    object shared the same way, [o = {k: 1}] in [toJSON([o, o])], is written
    once and then replaced by its marker. *)
Theorem shared_map_written_twice :
  forall call invokeFns fuel,
    result_of (toJSON call (5 + fuel)
                 [OArray [VRef 1; VRef 1]; OMap [(VString "k", VNumber 1)]] (VRef 0) invokeFns)
    = Done (Some (text
        "[{'kind':'Map','value':[['k',1]]},{'kind':'Map','value':[['k',1]]}]"))
    /\ result_of (toJSON call (5 + fuel)
                    [OArray [VRef 1; VRef 1]; OObject [("k", VNumber 1)]] (VRef 0) invokeFns)
       = Done (Some (text "[{'k':1},'[[ cyclic ref *1 ]]']")).
Proof. intros call [] fuel; vm_compute; split; reflexivity. Qed.

(** ** One step of the traversal *)

Section Steps.

Variable call : fid -> heap -> value -> list value -> call_result.
Variable invokeFns : bool.

Local Abbreviation Ser := (SerializeJSONProperty call invokeFns).

Lemma SerializeJSONProperty_S fuel stack st val :
  Ser (S fuel) stack st val =
    '(v, st1) ← replacer call invokeFns st val;
    match v with
    | VUndefined => Done (None, st1)
    | VNull => Done (Some "null", st1)
    | VBool true => Done (Some "true", st1)
    | VBool false => Done (Some "false", st1)
    | VString s => Done (Some (QuoteJSONString s), st1)
    | VNumber z => Done (Some (Number_toString z), st1)
    | VRef l =>
        match st_heap st1 !! l with
        | None => Throws DanglingReference
        | Some (OFunction _ _) => Done (None, st1)
        | Some (OArray es) =>
            if bool_decide (l ∈ stack) then Throws CircularStructure
            else
              '(partial, st2) ←
                serialize_elements call (Ser fuel (l :: stack)) l (seq 0 (List.length es)) st1;
              Done (Some ("[" +:+ join_comma partial +:+ "]"), st2)
        | Some o =>
            if bool_decide (l ∈ stack) then Throws CircularStructure
            else
              let K := match o with OObject fs => fs.*1 | _ => [] end in
              '(partial, st2) ← serialize_properties call (Ser fuel (l :: stack)) l K st1;
              Done (Some ("{" +:+ join_comma partial +:+ "}"), st2)
        end
    end.
Proof. reflexivity. Qed.

(** A composite that [seen] already holds is replaced by its marker, and
    nothing changes. *)
Lemma revisit_marker fuel stack h seen l o id :
  h !! l = Some o ->
  (forall n body, o <> OFunction n body) ->
  seen !! Some l = Some id ->
  Ser (S fuel) stack (State h seen) (VRef l)
  = Done (Some (QuoteJSONString (cyclic_marker id)), State h seen).
Proof.
  intros Hl Hfun Hseen. rewrite SerializeJSONProperty_S.
  unfold replacer; cbn [st_heap st_seen]. rewrite Hl.
  destruct o; try (exfalso; eapply Hfun; reflexivity);
    unfold object_branch; cbn [st_heap st_seen]; rewrite Hseen; reflexivity.
Qed.

(** A plain object met for the first time is recorded under the next id and
    then descended into. *)
Lemma first_visit_object fuel stack h seen l fs :
  h !! l = Some (OObject fs) ->
  seen !! Some l = None ->
  l ∉ stack ->
  Ser (S fuel) stack (State h seen) (VRef l)
  = '(partial, st2) ← serialize_properties call (Ser fuel (l :: stack)) l fs.*1
                         (State h (<[Some l := size seen]> seen));
    Done (Some ("{" +:+ join_comma partial +:+ "}"), st2).
Proof.
  intros Hl Hseen Hstack. rewrite SerializeJSONProperty_S.
  unfold replacer, object_branch; cbn [st_heap st_seen]. rewrite Hl, Hseen.
  cbn [mbind outcome_bind st_heap]. rewrite Hl.
  rewrite bool_decide_eq_false_2 by assumption. reflexivity.
Qed.

(** The same for an array. *)
Lemma first_visit_array fuel stack h seen l es :
  h !! l = Some (OArray es) ->
  seen !! Some l = None ->
  l ∉ stack ->
  Ser (S fuel) stack (State h seen) (VRef l)
  = '(partial, st2) ← serialize_elements call (Ser fuel (l :: stack)) l (seq 0 (List.length es))
                         (State h (<[Some l := size seen]> seen));
    Done (Some ("[" +:+ join_comma partial +:+ "]"), st2).
Proof.
  intros Hl Hseen Hstack. rewrite SerializeJSONProperty_S.
  unfold replacer, object_branch; cbn [st_heap st_seen]. rewrite Hl, Hseen.
  cbn [mbind outcome_bind st_heap]. rewrite Hl.
  rewrite bool_decide_eq_false_2 by assumption. reflexivity.
Qed.

End Steps.

(** ** Termination *)

Lemma unseen_mono (h : heap) (seen seen' : gmap (option loc) nat) :
  seen ⊆ seen' -> unseen h seen' <= unseen h seen.
Proof.
  intros Hsub. unfold unseen.
  rewrite <- (list_filter_filter_l (fun l => seen' !! Some l = None)
                                   (fun l => seen !! Some l = None)).
  - apply length_filter.
  - intros l Hl. eapply lookup_weaken_None; eassumption.
Qed.

Lemma unseen_insert (h : heap) (seen : gmap (option loc) nat) (l id : nat) :
  l < List.length h -> seen !! Some l = None ->
  unseen h (<[Some l := id]> seen) < unseen h seen.
Proof.
  intros Hlt Hnone. unfold unseen.
  rewrite <- (list_filter_filter_l (fun k => <[Some l := id]> seen !! Some k = None)
                                   (fun k => seen !! Some k = None)).
  - apply (length_filter_lt _ _ l).
    + apply list_elem_of_filter. split; [assumption|]. apply elem_of_seq. lia.
    + rewrite lookup_insert_eq. discriminate.
  - intros k Hk. eapply lookup_weaken_None; [exact Hk|].
    apply insert_subseteq. assumption.
Qed.

Lemma unseen_le_length (h : heap) (seen : gmap (option loc) nat) :
  unseen h seen <= List.length h.
Proof.
  unfold unseen. etrans; [apply length_filter|]. rewrite length_seq. reflexivity.
Qed.

Lemma assoc_closed (n : nat) (k : string) (fs : list (string * value)) :
  Forall (closed_value n) fs.*2 -> closed_value n (assoc k fs).
Proof.
  induction fs as [|[k' v] fs IH]; cbn; intros H; [exact I|].
  inversion H; subst. destruct (String.eqb k k'); auto.
Qed.

Lemma GetProp_lookup (h : heap) (l : loc) (fs : list (string * value)) (k : string) :
  h !! l = Some (OObject fs) -> GetProp h l k = assoc k fs.
Proof. intros H. unfold GetProp. rewrite H. reflexivity. Qed.

Lemma GetIndex_lookup (h : heap) (l : loc) (es : list value) (i : nat) :
  h !! l = Some (OArray es) -> GetIndex h l i = nth i es VUndefined.
Proof. intros H. unfold GetIndex. rewrite H. reflexivity. Qed.

Lemma GetProp_fresh (h : heap) (fs : list (string * value)) (k : string) :
  GetProp (h ++ [OObject fs]) (List.length h) k = assoc k fs.
Proof. unfold GetProp. rewrite list_lookup_middle by reflexivity. reflexivity. Qed.

Lemma nth_closed (n i : nat) (es : list value) :
  Forall (closed_value n) es -> closed_value n (nth i es VUndefined).
Proof.
  intros Hes. destruct (nth_in_or_default i es VUndefined) as [Hin|Hd].
  - rewrite Forall_forall in Hes. apply Hes. apply list_elem_of_In. exact Hin.
  - rewrite Hd. exact I.
Qed.

(** *** The [toJSON] method of a value *)

Lemma toJSON_method_not_object (h : heap) (l : loc) (o : obj) :
  h !! l = Some o -> (forall fs, o <> OObject fs) -> toJSON_method h (VRef l) = None.
Proof.
  intros Hl Ho. unfold toJSON_method. rewrite Hl.
  destruct o; try reflexivity. exfalso. eapply Ho. reflexivity.
Qed.

Lemma toJSON_method_no_key (h : heap) (l : loc) (fs : list (string * value)) :
  h !! l = Some (OObject fs) -> (forall f, assoc "toJSON" fs <> VRef f) ->
  toJSON_method h (VRef l) = None.
Proof.
  intros Hl Hfs. unfold toJSON_method. rewrite Hl.
  destruct (assoc "toJSON" fs) eqn:E; try reflexivity. exfalso. eapply Hfs. reflexivity.
Qed.

Lemma toJSON_method_primitive (h : heap) (v : value) :
  (forall l, v <> VRef l) -> toJSON_method h v = None.
Proof. intros Hv. destruct v; try reflexivity. exfalso. eapply Hv. reflexivity. Qed.

(** The method of a value of an object graph is the same on every heap that
    extends the graph. *)
Lemma toJSON_method_prefix (h h' : heap) (v : value) :
  closed_heap h -> closed_value (List.length h) v -> h `prefix_of` h' ->
  toJSON_method h' v = toJSON_method h v.
Proof.
  intros Hh Hv Hpre. destruct v as [| | | | |l]; try reflexivity.
  cbn in Hv. destruct (lookup_lt_is_Some_2 h l Hv) as [o Hl].
  unfold toJSON_method. rewrite Hl, (prefix_lookup_Some _ _ _ _ Hl Hpre).
  destruct o as [fs| | | |]; try reflexivity.
  pose proof (Forall_lookup_1 _ _ _ _ Hh Hl) as Hfs. cbn in Hfs.
  pose proof (assoc_closed _ "toJSON" _ Hfs) as Hc.
  destruct (assoc "toJSON" fs) as [| | | | |f]; try reflexivity.
  cbn in Hc. destruct (lookup_lt_is_Some_2 h f Hc) as [o' Hf].
  rewrite Hf, (prefix_lookup_Some _ _ _ _ Hf Hpre). reflexivity.
Qed.

(** *** States of a traversal *)

Lemma later_refl (st : state) : later st st.
Proof. split; reflexivity. Qed.

Lemma later_trans (st1 st2 st3 : state) : later st1 st2 -> later st2 st3 -> later st1 st3.
Proof. intros [? ?] [? ?]. split; etrans; eassumption. Qed.

Lemma later_insert (h : heap) (seen : gmap (option loc) nat) (key : option loc) (id : nat) :
  seen !! key = None -> later (State h seen) (State h (<[key := id]> seen)).
Proof. intros Hk. split; [reflexivity|]. cbn. apply insert_subseteq. exact Hk. Qed.

Lemma later_append (h news : heap) (seen : gmap (option loc) nat) :
  later (State h seen) (State (h ++ news) seen).
Proof. split; [apply prefix_app_r; reflexivity | reflexivity]. Qed.

Lemma later_lookup (st st' : state) (l : loc) (o : obj) :
  later st st' -> st_heap st !! l = Some o -> st_heap st' !! l = Some o.
Proof. intros [Hpre _] Hl. eapply prefix_lookup_Some; eassumption. Qed.

Lemma later_seen (st st' : state) (l : loc) :
  later st st' -> is_Some (st_seen st !! Some l) -> is_Some (st_seen st' !! Some l).
Proof. intros [_ Hsub] Hl. eapply lookup_weaken_is_Some; eassumption. Qed.

Lemma stack_inv_later (n0 : nat) (stack : list loc) (st st' : state) :
  stack_inv n0 stack st -> later st st' -> stack_inv n0 stack st'.
Proof.
  intros Hinv Hl l Hin. destruct (Hinv l Hin) as [Hlt Hcase]. split.
  - pose proof (prefix_length _ _ (proj1 Hl)). lia.
  - destruct Hcase as [Hs | (Hn & fs & Hfs)].
    + left. eapply later_seen; eassumption.
    + right. split; [exact Hn|]. exists fs. eapply later_lookup; eassumption.
Qed.

Lemma traversing_later (h0 : heap) (stack : list loc) (u : nat) (st st' : state) :
  traversing h0 stack u st -> later st st' -> traversing h0 stack u st'.
Proof.
  intros (Hpre & Hinv & Hu) Hl. split; [|split].
  - etrans; [exact Hpre | apply Hl].
  - eapply stack_inv_later; eassumption.
  - pose proof (unseen_mono h0 _ _ (proj2 Hl)). lia.
Qed.

(** An object of [seen] may be put on the stack. *)
Lemma traversing_push_seen (h0 : heap) (stack : list loc) (u : nat) (st : state) (l : loc) (o : obj) :
  traversing h0 stack u st -> st_heap st !! l = Some o ->
  is_Some (st_seen st !! Some l) -> traversing h0 (l :: stack) u st.
Proof.
  intros (Hpre & Hinv & Hu) Hl Hs. split; [|split]; [assumption | | assumption].
  intros l' Hin. apply elem_of_cons in Hin as [->|Hin]; [|apply Hinv, Hin].
  split; [eapply lookup_lt_Some; exact Hl | left; exact Hs].
Qed.

(** And so may a wrapper object that the replacer has just built. *)
Lemma traversing_push_wrapper (h0 : heap) (stack : list loc) (u : nat) (st : state) (w : loc)
    (fs : list (string * value)) :
  traversing h0 stack u st -> st_heap st !! w = Some (OObject fs) ->
  List.length h0 <= w -> traversing h0 (w :: stack) u st.
Proof.
  intros (Hpre & Hinv & Hu) Hl Hw. split; [|split]; [assumption | | assumption].
  intros l' Hin. apply elem_of_cons in Hin as [->|Hin]; [|apply Hinv, Hin].
  split; [eapply lookup_lt_Some; exact Hl | right; split; [exact Hw | exists fs; exact Hl]].
Qed.

(** An array that is not in [seen] is not being serialized. *)
Lemma unseen_array_not_on_stack (h0 : heap) (stack : list loc) (u : nat) (st : state) (a : loc)
    (es : list value) :
  traversing h0 stack u st -> st_heap st !! a = Some (OArray es) ->
  st_seen st !! Some a = None -> a ∉ stack.
Proof.
  intros (_ & Hinv & _) Ha Hs Hin. destruct (Hinv a Hin) as [_ [[id Hid] | (_ & fs & Hfs)]].
  - rewrite Hs in Hid. discriminate.
  - rewrite Ha in Hfs. discriminate.
Qed.

(** Nor is an object of the graph that is not in [seen]. *)
Lemma unseen_not_on_stack (h0 : heap) (stack : list loc) (u : nat) (st : state) (l : loc) :
  traversing h0 stack u st -> l < List.length h0 ->
  st_seen st !! Some l = None -> l ∉ stack.
Proof.
  intros (_ & Hinv & _) Hl Hs Hin. destruct (Hinv l Hin) as [_ [[id Hid] | (Hge & _)]].
  - rewrite Hs in Hid. discriminate.
  - lia.
Qed.

(** Nor is an address that is not allocated yet. *)
Lemma fresh_not_on_stack (h0 : heap) (stack : list loc) (u : nat) (st : state) (w : loc) :
  traversing h0 stack u st -> List.length (st_heap st) <= w -> w ∉ stack.
Proof. intros (_ & Hinv & _) Hw Hin. destruct (Hinv w Hin) as [Hlt _]. lia. Qed.

Lemma terminates_impl (run : nat -> outcome (option string * state)) (st : state)
    (Q Q' : option string -> Prop) :
  (forall r, Q r -> Q' r) -> terminates run st Q -> terminates run st Q'.
Proof.
  intros HQ (r & st' & F & Hrun & Hl & Hq). exists r, st', F. auto.
Qed.

(** *** The loops and the composites, given that the members end *)

Section Loops.

Variable call : fid -> heap -> value -> list value -> call_result.
Variable invokeFns : bool.

Local Abbreviation Ser := (SerializeJSONProperty call invokeFns).
Local Abbreviation Vis := (visit call invokeFns).

Lemma call_toJSON_none st key (v : value) :
  toJSON_method (st_heap st) v = None -> call_toJSON call st key v = Done (v, st).
Proof. intros H. unfold call_toJSON. rewrite H. reflexivity. Qed.

Lemma visit_none fuel stack st key (v : value) :
  toJSON_method (st_heap st) v = None -> Vis fuel stack st key v = Ser fuel stack st v.
Proof. intros H. unfold visit. rewrite call_toJSON_none by exact H. reflexivity. Qed.

Lemma serialize_properties_nil rec l st :
  serialize_properties call rec l [] st = Done ([], st).
Proof. reflexivity. Qed.

Lemma serialize_properties_cons fuel stack l P K st :
  serialize_properties call (Ser fuel stack) l (P :: K) st =
    '(strP, st1) ← Vis fuel stack st P (GetProp (st_heap st) l P);
    '(partial, st2) ← serialize_properties call (Ser fuel stack) l K st1;
    Done (match strP with
          | Some s => (QuoteJSONString P +:+ ":" +:+ s) :: partial
          | None => partial
          end, st2).
Proof.
  unfold visit. cbn [serialize_properties].
  destruct (call_toJSON call st P (GetProp (st_heap st) l P)) as [[v st0]| |]; reflexivity.
Qed.

Lemma serialize_elements_cons fuel stack l i rest st :
  serialize_elements call (Ser fuel stack) l (i :: rest) st =
    '(strP, st1) ← Vis fuel stack st (nat_to_string i) (GetIndex (st_heap st) l i);
    '(partial, st2) ← serialize_elements call (Ser fuel stack) l rest st1;
    Done (default "null" strP :: partial, st2).
Proof.
  unfold visit. cbn [serialize_elements].
  destruct (call_toJSON call st (nat_to_string i) (GetIndex (st_heap st) l i)) as [[v st0]| |];
    reflexivity.
Qed.

Lemma serialize_properties_terminates stack l fs K : forall st,
  st_heap st !! l = Some (OObject fs) ->
  (forall P st', P ∈ K -> later st st' ->
     terminates (fun fuel => Vis fuel stack st' P (assoc P fs)) st' (fun _ => True)) ->
  loop_terminates (fun fuel => serialize_properties call (Ser fuel stack) l K st) st.
Proof.
  induction K as [|P K IH]; intros st Hl Hch.
  - exists [], st, 0. split; [reflexivity | apply later_refl].
  - destruct (Hch P st) as (r & st1 & F1 & Hrun1 & Hlater1 & _); [left | apply later_refl |].
    destruct (IH st1) as (parts & st2 & F2 & Hrun2 & Hlater2).
    + eapply later_lookup; eassumption.
    + intros P' st' HP' Hl'. apply Hch; [right; exact HP' | eapply later_trans; eassumption].
    + eexists _, st2, (F1 `max` F2). split; [|eapply later_trans; eassumption].
      intros fuel Hfuel. rewrite serialize_properties_cons, (GetProp_lookup _ _ _ _ Hl).
      rewrite Hrun1 by lia. cbn [mbind outcome_bind]. rewrite Hrun2 by lia. reflexivity.
Qed.

Lemma serialize_elements_terminates stack l es indices : forall st,
  st_heap st !! l = Some (OArray es) ->
  (forall i st', i ∈ indices -> later st st' ->
     terminates (fun fuel => Vis fuel stack st' (nat_to_string i) (nth i es VUndefined)) st'
       (fun _ => True)) ->
  loop_terminates (fun fuel => serialize_elements call (Ser fuel stack) l indices st) st.
Proof.
  induction indices as [|i indices IH]; intros st Hl Hch.
  - exists [], st, 0. split; [reflexivity | apply later_refl].
  - destruct (Hch i st) as (r & st1 & F1 & Hrun1 & Hlater1 & _); [left | apply later_refl |].
    destruct (IH st1) as (parts & st2 & F2 & Hrun2 & Hlater2).
    + eapply later_lookup; eassumption.
    + intros i' st' Hi' Hl'. apply Hch; [right; exact Hi' | eapply later_trans; eassumption].
    + eexists _, st2, (F1 `max` F2). split; [|eapply later_trans; eassumption].
      intros fuel Hfuel. rewrite serialize_elements_cons, (GetIndex_lookup _ _ _ _ Hl).
      rewrite Hrun1 by lia. cbn [mbind outcome_bind]. rewrite Hrun2 by lia. reflexivity.
Qed.

(** What [SerializeJSONProperty] does once the replacer has returned a plain
    object, or an array. *)
Lemma replaced_object fuel stack st st1 (val : value) (w : loc) (fs : list (string * value)) :
  replacer call invokeFns st val = Done (VRef w, st1) ->
  st_heap st1 !! w = Some (OObject fs) -> w ∉ stack ->
  Ser (S fuel) stack st val
  = '(partial, st2) ← serialize_properties call (Ser fuel (w :: stack)) w fs.*1 st1;
    Done (Some ("{" +:+ join_comma partial +:+ "}"), st2).
Proof.
  intros Hr Hw Hs. rewrite SerializeJSONProperty_S, Hr. cbn [mbind outcome_bind].
  rewrite Hw, bool_decide_eq_false_2 by assumption. reflexivity.
Qed.

Lemma replaced_array fuel stack st st1 (val : value) (a : loc) (es : list value) :
  replacer call invokeFns st val = Done (VRef a, st1) ->
  st_heap st1 !! a = Some (OArray es) -> a ∉ stack ->
  Ser (S fuel) stack st val
  = '(partial, st2) ← serialize_elements call (Ser fuel (a :: stack)) a
                         (seq 0 (List.length es)) st1;
    Done (Some ("[" +:+ join_comma partial +:+ "]"), st2).
Proof.
  intros Hr Ha Hs. rewrite SerializeJSONProperty_S, Hr. cbn [mbind outcome_bind].
  rewrite Ha, bool_decide_eq_false_2 by assumption. reflexivity.
Qed.

Lemma object_terminates stack st st1 (val : value) (w : loc) (fs : list (string * value)) :
  replacer call invokeFns st val = Done (VRef w, st1) ->
  st_heap st1 !! w = Some (OObject fs) -> w ∉ stack -> later st st1 ->
  (forall P st', P ∈ fs.*1 -> later st1 st' ->
     terminates (fun fuel => Vis fuel (w :: stack) st' P (assoc P fs)) st' (fun _ => True)) ->
  terminates (fun fuel => Ser fuel stack st val) st (fun r => r <> None).
Proof.
  intros Hr Hw Hs Hl Hch.
  destruct (serialize_properties_terminates (w :: stack) w fs fs.*1 st1 Hw Hch)
    as (parts & st2 & F & Hrun & Hl2).
  eexists _, st2, (S F). split.
  { intros [|fuel] Hf; [lia|].
    rewrite (replaced_object _ _ _ _ _ _ _ Hr Hw Hs), Hrun by lia. reflexivity. }
  split; [eapply later_trans; eassumption | discriminate].
Qed.

Lemma array_terminates stack st st1 (val : value) (a : loc) (es : list value) :
  replacer call invokeFns st val = Done (VRef a, st1) ->
  st_heap st1 !! a = Some (OArray es) -> a ∉ stack -> later st st1 ->
  (forall i st', i < List.length es -> later st1 st' ->
     terminates (fun fuel => Vis fuel (a :: stack) st' (nat_to_string i) (nth i es VUndefined))
       st' (fun _ => True)) ->
  terminates (fun fuel => Ser fuel stack st val) st (fun r => r <> None).
Proof.
  intros Hr Ha Hs Hl Hch.
  destruct (serialize_elements_terminates (a :: stack) a es (seq 0 (List.length es)) st1 Ha)
    as (parts & st2 & F & Hrun & Hl2).
  { intros i st' Hi. apply Hch. apply elem_of_seq in Hi. lia. }
  eexists _, st2, (S F). split.
  { intros [|fuel] Hf; [lia|].
    rewrite (replaced_array _ _ _ _ _ _ _ Hr Ha Hs), Hrun by lia. reflexivity. }
  split; [eapply later_trans; eassumption | discriminate].
Qed.

(** The replacer on a plain object or an array that is not in [seen]. *)
Lemma replacer_records h seen (l : loc) (o : obj) :
  h !! l = Some o ->
  match o with OObject _ | OArray _ => True | _ => False end ->
  seen !! Some l = None ->
  replacer call invokeFns (State h seen) (VRef l)
  = Done (VRef l, State h (<[Some l := size seen]> seen)).
Proof.
  intros Hl Ho Hs. unfold replacer, object_branch; cbn [st_heap st_seen].
  rewrite Hl. destruct o; try contradiction; rewrite Hs; reflexivity.
Qed.

(** A composite that is in [seen]. *)
Lemma marker_terminates stack st (l : loc) (o : obj) :
  st_heap st !! l = Some o -> (forall n body, o <> OFunction n body) ->
  is_Some (st_seen st !! Some l) ->
  terminates (fun fuel => Ser fuel stack st (VRef l)) st (fun r => r <> None).
Proof.
  intros Hl Ho [id Hid]. destruct st as [h seen]. cbn in Hl, Hid.
  eexists _, _, 1. split.
  { intros [|fuel] Hf; [lia|]. eapply revisit_marker; eassumption. }
  split; [apply later_refl | discriminate].
Qed.

(** A primitive. *)
Lemma primitive_terminates stack st (v : value) :
  (forall l, v <> VRef l) ->
  terminates (fun fuel => Ser fuel stack st v) st (fun r => r = None -> v = VUndefined).
Proof.
  intros Hv. destruct st as [h seen].
  destruct v as [| |b|z|s|l]; try (exfalso; eapply Hv; reflexivity).
  - exists None, (State h seen), 1. split; [|split; [apply later_refl | reflexivity]].
    intros [|fuel] Hf; [lia|]. reflexivity.
  - destruct (seen !! @None loc) as [id|] eqn:Hn.
    + exists (Some (QuoteJSONString (cyclic_marker id))), (State h seen), 1.
      split; [|split; [apply later_refl | discriminate]].
      intros [|fuel] Hf; [lia|]. rewrite SerializeJSONProperty_S.
      unfold replacer, object_branch; cbn [st_heap st_seen]. rewrite Hn. reflexivity.
    + exists (Some "null"), (State h (<[None := size seen]> seen)), 1.
      split; [|split; [apply later_insert; exact Hn | discriminate]].
      intros [|fuel] Hf; [lia|]. rewrite SerializeJSONProperty_S.
      unfold replacer, object_branch; cbn [st_heap st_seen]. rewrite Hn. reflexivity.
  - exists (Some (if b then "true" else "false")), (State h seen), 1.
    split; [|split; [apply later_refl | discriminate]].
    intros [|fuel] Hf; [lia|]. destruct b; reflexivity.
  - exists (Some (Number_toString z)), (State h seen), 1.
    split; [|split; [apply later_refl | discriminate]].
    intros [|fuel] Hf; [lia|]. reflexivity.
  - exists (Some (QuoteJSONString s)), (State h seen), 1.
    split; [|split; [apply later_refl | discriminate]].
    intros [|fuel] Hf; [lia|]. reflexivity.
Qed.

Lemma primitive_visit_terminates stack st key (v : value) :
  (forall l, v <> VRef l) ->
  terminates (fun fuel => Vis fuel stack st key v) st (fun _ => True).
Proof.
  intros Hv. eapply terminates_impl; [intros r _; exact I|].
  destruct (primitive_terminates stack st v Hv) as (r & st' & F & Hrun & Hl & Hq).
  exists r, st', F. split; [|split; [exact Hl | exact Hq]].
  intros fuel Hf. rewrite visit_none by (apply toJSON_method_primitive; exact Hv).
  apply Hrun, Hf.
Qed.

(** An array, in [seen] or not, given that the visits of its elements end
    in every later state that has the array in [seen]. *)
Lemma array_visit_terminates stack st key (a : loc) (es : list value) :
  st_heap st !! a = Some (OArray es) ->
  (st_seen st !! Some a = None -> a ∉ stack) ->
  (forall i st', i < List.length es -> later st st' -> is_Some (st_seen st' !! Some a) ->
     terminates (fun fuel => Vis fuel (a :: stack) st' (nat_to_string i) (nth i es VUndefined))
       st' (fun _ => True)) ->
  terminates (fun fuel => Vis fuel stack st key (VRef a)) st (fun r => r <> None).
Proof.
  intros Ha Hs Hch.
  assert (Hm : toJSON_method (st_heap st) (VRef a) = None)
    by (eapply toJSON_method_not_object; [exact Ha | discriminate]).
  assert (Hgoal : terminates (fun fuel => Ser fuel stack st (VRef a)) st (fun r => r <> None)).
  { destruct (st_seen st !! Some a) as [id|] eqn:Hid.
    - eapply marker_terminates; [exact Ha | discriminate | rewrite Hid; eauto].
    - destruct st as [h seen]. cbn in Ha, Hid, Hs.
      eapply array_terminates.
      + eapply replacer_records; [exact Ha | exact I | exact Hid].
      + exact Ha.
      + apply Hs. reflexivity.
      + apply later_insert. exact Hid.
      + intros i st' Hi Hl'. apply Hch; [exact Hi | |].
        * eapply later_trans; [apply later_insert; exact Hid | exact Hl'].
        * eapply later_seen; [exact Hl'|]. cbn. rewrite lookup_insert_eq. eauto. }
  destruct Hgoal as (r & st' & F & Hrun & Hl & Hq).
  exists r, st', F. split; [|split; [exact Hl | exact Hq]].
  intros fuel Hf. rewrite visit_none by exact Hm. apply Hrun, Hf.
Qed.

End Loops.

(** *** Every visit of a well-ranked graph ends *)

Lemma nth_refs (s len i : nat) :
  i < len -> nth i (VRef <$> seq s len) VUndefined = VRef (s + i).
Proof.
  revert s i. induction len as [|len IH]; intros s i Hi; [lia|].
  destruct i as [|i]; cbn; [f_equal; lia|].
  rewrite IH by lia. f_equal. lia.
Qed.

Lemma alloc_entries_spec (h : heap) (entries : list (value * value)) :
  alloc_entries h entries
  = (VRef <$> seq (List.length h) (List.length entries), h ++ pair_arrays entries).
Proof.
  revert h. induction entries as [|[k v] entries IH]; intros h.
  - cbn. rewrite app_nil_r. reflexivity.
  - cbn [alloc_entries alloc]. rewrite IH. rewrite length_app. cbn [List.length].
    rewrite Nat.add_1_r, <- (assoc_L app). reflexivity.
Qed.

Lemma length_pair_arrays (entries : list (value * value)) :
  List.length (pair_arrays entries) = List.length entries.
Proof. unfold pair_arrays. apply length_fmap. Qed.

Lemma pair_arrays_lookup (h : heap) (entries : list (value * value)) (i : nat) (k v : value) :
  entries !! i = Some (k, v) ->
  (h ++ pair_arrays entries) !! (List.length h + i) = Some (OArray [k; v]).
Proof.
  intros Hi. rewrite lookup_app_r by lia.
  replace (List.length h + i - List.length h) with i by lia.
  unfold pair_arrays. rewrite list_lookup_fmap, Hi. reflexivity.
Qed.

Section Wrappers.

Variable call : fid -> heap -> value -> list value -> call_result.
Variable invokeFns : bool.
Variable h0 : heap.

Local Abbreviation Ser := (SerializeJSONProperty call invokeFns).
Local Abbreviation Vis := (visit call invokeFns).

Lemma replacer_invokes h seen (l : loc) (body : fid) (r : value) (h1 : heap) :
  h !! l = Some (OFunction 0 body) -> invokeFns = true ->
  call body h VUndefined [] = Returns r h1 ->
  replacer call invokeFns (State h seen) (VRef l)
  = Done (VRef (List.length h1),
          State (h1 ++ [OObject [("kind", VString "Function"); ("result", r)]]) seen).
Proof.
  intros Hl Hf Hc. unfold replacer; cbn [st_heap st_seen]. rewrite Hl, Hf, Hc. reflexivity.
Qed.

Lemma replacer_function_marker st (l : loc) (N : nat) (body : fid) :
  st_heap st !! l = Some (OFunction N body) -> (N =? 0) && invokeFns = false ->
  replacer call invokeFns st (VRef l) = Done (VString (function_marker N), st).
Proof. intros Hl Hf. unfold replacer. rewrite Hl, Hf. reflexivity. Qed.

Lemma replacer_map h seen (l : loc) (entries : list (value * value)) :
  h !! l = Some (OMap entries) -> seen !! Some l = None ->
  replacer call invokeFns (State h seen) (VRef l)
  = Done (VRef (S (List.length h + List.length entries)),
          State (((h ++ pair_arrays entries)
                  ++ [OArray (VRef <$> seq (List.length h) (List.length entries))])
                 ++ [OObject [("kind", VString "Map");
                              ("value", VRef (List.length h + List.length entries))]])
                seen).
Proof.
  intros Hl Hs. unfold replacer, object_branch; cbn [st_heap st_seen].
  rewrite Hl, Hs, alloc_entries_spec. unfold alloc.
  rewrite !length_app, length_pair_arrays. cbn [List.length].
  rewrite Nat.add_1_r. reflexivity.
Qed.

Lemma replacer_set h seen (l : loc) (es : list value) :
  h !! l = Some (OSet es) -> seen !! Some l = None ->
  replacer call invokeFns (State h seen) (VRef l)
  = Done (VRef (S (List.length h)),
          State ((h ++ [OArray es])
                 ++ [OObject [("kind", VString "Set"); ("value", VRef (List.length h))]])
                seen).
Proof.
  intros Hl Hs. unfold replacer, object_branch; cbn [st_heap st_seen].
  rewrite Hl, Hs. unfold alloc. rewrite length_app. cbn [List.length].
  rewrite Nat.add_1_r. reflexivity.
Qed.

(** An array met during a traversal, given that its elements end. *)
Lemma fresh_array_visit stack u st key (a : loc) (es : list value) :
  traversing h0 stack u st -> st_heap st !! a = Some (OArray es) ->
  (forall i st', i < List.length es -> traversing h0 (a :: stack) u st' -> later st st' ->
     terminates (fun fuel => Vis fuel (a :: stack) st' (nat_to_string i) (nth i es VUndefined))
       st' (fun _ => True)) ->
  terminates (fun fuel => Vis fuel stack st key (VRef a)) st (fun _ => True).
Proof.
  intros Htr Ha Hch. eapply terminates_impl; [intros r _; exact I|].
  apply array_visit_terminates with (es := es).
  - exact Ha.
  - eapply unseen_array_not_on_stack; eassumption.
  - intros i st' Hi Hl' Hs. apply Hch; [exact Hi | | exact Hl'].
    eapply traversing_push_seen; [eapply traversing_later; eassumption | | exact Hs].
    eapply later_lookup; eassumption.
Qed.

(** A wrapper object that the replacer has built, given that its members
    end. *)
Lemma wrapper_visit stack u st st1 (val : value) (w : loc) (fs : list (string * value)) :
  traversing h0 stack u st ->
  replacer call invokeFns st val = Done (VRef w, st1) ->
  later st st1 -> List.length (st_heap st) <= w ->
  st_heap st1 !! w = Some (OObject fs) ->
  (forall P st', P ∈ fs.*1 -> traversing h0 (w :: stack) u st' -> later st1 st' ->
     terminates (fun fuel => Vis fuel (w :: stack) st' P (assoc P fs)) st' (fun _ => True)) ->
  terminates (fun fuel => Ser fuel stack st val) st (fun r => r <> None).
Proof.
  intros Htr Hr Hl Hw Hlook Hch.
  eapply object_terminates; [exact Hr | exact Hlook | | exact Hl |].
  - eapply fresh_not_on_stack; eassumption.
  - intros P st' HP Hl'. apply Hch; [exact HP | | exact Hl'].
    eapply traversing_push_wrapper.
    + eapply traversing_later; [exact Htr | eapply later_trans; eassumption].
    + eapply later_lookup; eassumption.
    + pose proof (prefix_length _ _ (proj1 Htr)). lia.
Qed.

End Wrappers.

Section Termination.

Variable call : fid -> heap -> value -> list value -> call_result.
Variable invokeFns : bool.
Variable h0 : heap.
Variable ret : fid -> value -> list value -> value.
Variable rank : loc -> nat.

Hypothesis h0_closed : closed_heap h0.
Hypothesis calls_return : returns_values call invokeFns h0 ret.
Hypothesis ranked : well_ranked invokeFns h0 ret rank.

Local Abbreviation Ser := (SerializeJSONProperty call invokeFns).
Local Abbreviation Vis := (visit call invokeFns).
Local Abbreviation arank' := (arank invokeFns h0 rank).
Local Abbreviation srank' := (srank invokeFns h0 rank).

(** Step 2 on a value of the graph: the method, if any, returns a value of
    the graph and leaves the state as it is. *)
Lemma call_toJSON_effective st key (v : value) :
  h0 `prefix_of` st_heap st -> closed_value (List.length h0) v ->
  call_toJSON call st key v = Done (effective h0 ret key v, st)
  /\ closed_value (List.length h0) (effective h0 ret key v).
Proof.
  intros Hpre Hv. unfold call_toJSON, effective.
  rewrite (toJSON_method_prefix h0 (st_heap st) v h0_closed Hv Hpre).
  destruct (toJSON_method h0 v) as [body|] eqn:Hm; [|split; [reflexivity | exact Hv]].
  destruct v as [| | | | |l]; try discriminate.
  destruct (calls_return body (VRef l) [VString key] (st_heap st)) as [-> Hc];
    [right; exists l, key; auto | exact Hpre |].
  split; [destruct st; reflexivity | exact Hc].
Qed.

Lemma effective_rank key (v : value) :
  arank' (effective h0 ret key v) <= srank' v.
Proof.
  unfold effective, srank. destruct (toJSON_method h0 v) as [body|] eqn:Hm; [|reflexivity].
  destruct v as [| | | | |l]; try discriminate.
  pose proof (ranked l) as Hrk. unfold toJSON_method in Hm.
  destruct (h0 !! l) as [[fs| | | |]|] eqn:Hl; try discriminate.
  specialize (Hrk body key). etrans; [apply Hrk|lia].
  unfold toJSON_method. rewrite Hl. exact Hm.
Qed.

Lemma visits_end_all : forall u m, visits_end call invokeFns h0 ret rank u m.
Proof.
  induction u as [u IHu] using lt_wf_ind. induction m as [m IHm] using lt_wf_ind.
  intros stack st key v Htr Hv.
  assert (Hmember : forall m' stack' st' key' (v' : value),
             m' < m -> traversing h0 stack' u st' -> closed_value (List.length h0) v' ->
             2 * srank' v' + 1 <= m' ->
             terminates (fun fuel => Vis fuel stack' st' key' v') st' (fun _ => True)).
  { intros m' stack' st' key' v' Hlt Htr' Hv' Hm'.
    eapply terminates_impl; [intros r _; exact I|].
    apply (IHm m' Hlt stack' st' key' v' Htr' Hv'). exact Hm'. }
  split.
  - (* the visit from the replacer on *)
    destruct v as [| | | | |l];
      try (intros _; apply primitive_terminates; intros l'; discriminate).
    cbn in Hv. destruct (lookup_lt_is_Some_2 h0 l Hv) as [o Hl0].
    pose proof (prefix_lookup_Some _ _ _ _ Hl0 (proj1 Htr)) as Hl.
    pose proof (ranked l) as Hrk. rewrite Hl0 in Hrk.
    pose proof (Forall_lookup_1 _ _ _ _ h0_closed Hl0) as Hclosed.
    intros Hm. eapply terminates_impl; [intros r Hr Hnone; exfalso; exact (Hr Hnone)|].
    destruct o as [fs|es|entries|es|N body].
    + (* a plain object *)
      destruct (st_seen st !! Some l) as [id|] eqn:Hid.
      { eapply marker_terminates; [exact Hl | discriminate | rewrite Hid; eauto]. }
      destruct st as [h seen]. cbn in Hl, Hid.
      pose proof (unseen_insert h0 seen l (size seen) Hv Hid) as Hless.
      assert (Hu : unseen h0 seen <= u) by apply Htr.
      assert (Htr1 : traversing h0 (l :: stack) (pred u)
                       (State h (<[Some l := size seen]> seen))).
      { eapply traversing_push_seen with (o := OObject fs);
          [| exact Hl | cbn; rewrite lookup_insert_eq; eauto].
        split; [apply Htr | split].
        - eapply stack_inv_later; [apply Htr | apply later_insert; exact Hid].
        - cbn. lia. }
      eapply object_terminates.
      * eapply replacer_records; [exact Hl | exact I | exact Hid].
      * exact Hl.
      * eapply unseen_not_on_stack; [exact Htr | exact Hv | exact Hid].
      * apply later_insert. exact Hid.
      * intros P st' HP Hl'. eapply terminates_impl; [intros r _; exact I|].
        apply (IHu (pred u) ltac:(lia) (2 * srank' (assoc P fs) + 1) (l :: stack) st' P
                 (assoc P fs)).
        -- eapply traversing_later; eassumption.
        -- apply assoc_closed. exact Hclosed.
        -- reflexivity.
    + (* an array *)
      destruct (st_seen st !! Some l) as [id|] eqn:Hid.
      { eapply marker_terminates; [exact Hl | discriminate | rewrite Hid; eauto]. }
      destruct st as [h seen]. cbn in Hl, Hid.
      pose proof (unseen_insert h0 seen l (size seen) Hv Hid) as Hless.
      assert (Hu : unseen h0 seen <= u) by apply Htr.
      assert (Htr1 : traversing h0 (l :: stack) (pred u)
                       (State h (<[Some l := size seen]> seen))).
      { eapply traversing_push_seen with (o := OArray es);
          [| exact Hl | cbn; rewrite lookup_insert_eq; eauto].
        split; [apply Htr | split].
        - eapply stack_inv_later; [apply Htr | apply later_insert; exact Hid].
        - cbn. lia. }
      eapply array_terminates.
      * eapply replacer_records; [exact Hl | exact I | exact Hid].
      * exact Hl.
      * eapply unseen_not_on_stack; [exact Htr | exact Hv | exact Hid].
      * apply later_insert. exact Hid.
      * intros i st' Hi Hl'. eapply terminates_impl; [intros r _; exact I|].
        apply (IHu (pred u) ltac:(lia) (2 * srank' (nth i es VUndefined) + 1) (l :: stack) st'
                 (nat_to_string i) (nth i es VUndefined)).
        -- eapply traversing_later; eassumption.
        -- apply nth_closed. exact Hclosed.
        -- reflexivity.
    + (* a Map *)
      assert (Ha : arank' (VRef l) = S (rank l)) by (unfold arank; rewrite Hl0; reflexivity).
      destruct (st_seen st !! Some l) as [id|] eqn:Hid.
      { eapply marker_terminates; [exact Hl | discriminate | rewrite Hid; eauto]. }
      destruct st as [h seen]. cbn in Hl, Hid. cbn in Hclosed. destruct Hclosed as [Hks Hvs].
      apply Forall_app in Hrk as [Hrks Hrvs].
      eapply wrapper_visit;
        [exact Htr | apply replacer_map; eassumption | | cbn; lia
         | cbn; apply list_lookup_middle; rewrite !length_app, length_pair_arrays; cbn; lia |].
      { eapply later_trans; [|apply later_append].
        eapply later_trans; [|apply later_append]. apply later_append. }
      intros P st' HP Htr' Hl'. cbn in HP.
      apply elem_of_cons in HP as [->|HP];
        [apply primitive_visit_terminates; intros l'; discriminate|].
      apply list_elem_of_singleton in HP as ->.
      change (assoc "value" _) with (VRef (List.length h + List.length entries)).
      eapply fresh_array_visit; [exact Htr' | |].
      { eapply later_lookup; [exact Hl'|]. cbn.
        rewrite lookup_app_l by (rewrite !length_app, length_pair_arrays; cbn; lia).
        apply list_lookup_middle. rewrite length_app, length_pair_arrays. reflexivity. }
      intros i st2 Hi Htr2 Hl2. rewrite length_fmap, length_seq in Hi.
      rewrite nth_refs by exact Hi.
      destruct (lookup_lt_is_Some_2 entries i Hi) as [[k v] Hkv].
      eapply fresh_array_visit; [exact Htr2 | |].
      { eapply later_lookup; [exact Hl2|]. eapply later_lookup; [exact Hl'|]. cbn.
        rewrite lookup_app_l by (rewrite !length_app, length_pair_arrays; cbn; lia).
        rewrite lookup_app_l by (rewrite !length_app, length_pair_arrays; lia).
        apply pair_arrays_lookup. exact Hkv. }
      intros j st3 Hj Htr3 Hl3. cbn in Hj.
      assert (Hk : k ∈ entries.*1)
        by (apply list_elem_of_fmap; exists (k, v); split;
            [reflexivity | eapply list_elem_of_lookup_2; exact Hkv]).
      assert (Hv' : v ∈ entries.*2)
        by (apply list_elem_of_fmap; exists (k, v); split;
            [reflexivity | eapply list_elem_of_lookup_2; exact Hkv]).
      rewrite Forall_forall in Hks, Hvs, Hrks, Hrvs.
      destruct j as [|[|j]]; [| |lia]; cbn [nth].
      * apply (Hmember (2 * rank l + 1)); [lia | exact Htr3 | apply Hks, Hk |].
        specialize (Hrks k Hk). cbn in Hrks. lia.
      * apply (Hmember (2 * rank l + 1)); [lia | exact Htr3 | apply Hvs, Hv' |].
        specialize (Hrvs v Hv'). cbn in Hrvs. lia.
    + (* a Set *)
      assert (Ha : arank' (VRef l) = S (rank l)) by (unfold arank; rewrite Hl0; reflexivity).
      destruct (st_seen st !! Some l) as [id|] eqn:Hid.
      { eapply marker_terminates; [exact Hl | discriminate | rewrite Hid; eauto]. }
      destruct st as [h seen]. cbn in Hl, Hid. cbn in Hclosed.
      eapply wrapper_visit;
        [exact Htr | apply replacer_set; eassumption | | cbn; lia
         | cbn; apply list_lookup_middle; rewrite !length_app; cbn; lia |].
      { eapply later_trans; [|apply later_append]. apply later_append. }
      intros P st' HP Htr' Hl'. cbn in HP.
      apply elem_of_cons in HP as [->|HP];
        [apply primitive_visit_terminates; intros l'; discriminate|].
      apply list_elem_of_singleton in HP as ->.
      change (assoc "value" _) with (VRef (List.length h)).
      eapply fresh_array_visit; [exact Htr' | |].
      { eapply later_lookup; [exact Hl'|]. cbn.
        rewrite lookup_app_l by (rewrite !length_app; cbn; lia).
        apply list_lookup_middle. reflexivity. }
      intros i st2 Hi Htr2 Hl2.
      assert (Hin : nth i es VUndefined ∈ es)
        by (apply list_elem_of_In, nth_In; exact Hi).
      rewrite Forall_forall in Hclosed, Hrk.
      apply (Hmember (2 * rank l + 1)); [lia | exact Htr2 | apply Hclosed, Hin |].
      specialize (Hrk _ Hin). cbn in Hrk. lia.
    + (* a function *)
      destruct ((N =? 0) && invokeFns) eqn:Hflag.
      * apply andb_prop in Hflag as [HN Hflag]. apply Nat.eqb_eq in HN. subst N.
        assert (Ha : arank' (VRef l) = S (rank l))
          by (unfold arank; rewrite Hl0, Hflag; reflexivity).
        specialize (Hrk eq_refl Hflag).
        destruct st as [h seen]. cbn in Hl.
        destruct (calls_return body VUndefined [] h) as [Hcall Hc];
          [left; eauto 6 | exact (proj1 Htr) |].
        eapply wrapper_visit;
          [exact Htr | eapply replacer_invokes; eassumption | apply later_append | cbn; lia
           | cbn; apply list_lookup_middle; reflexivity |].
        intros P st' HP Htr' Hl'. cbn in HP.
        apply elem_of_cons in HP as [->|HP];
          [apply primitive_visit_terminates; intros l'; discriminate|].
        apply list_elem_of_singleton in HP as ->.
        change (assoc "result" _) with (ret body VUndefined []).
        apply (Hmember (2 * rank l + 1)); [lia | exact Htr' | exact Hc | lia].
      * exists (Some (QuoteJSONString (function_marker N))), st, 1.
        split; [|split; [apply later_refl | discriminate]].
        intros [|fuel] Hf; [lia|]. rewrite SerializeJSONProperty_S.
        rewrite (replacer_function_marker call invokeFns st l N body Hl Hflag). reflexivity.
  - (* the whole visit, step 2 first *)
    intros Hm.
    destruct (call_toJSON_effective st key v (proj1 Htr) Hv) as [Hstep Hc].
    pose proof (effective_rank key v) as Hrank.
    destruct (IHm (m - 1) ltac:(lia) stack st key (effective h0 ret key v) Htr Hc)
      as [Hafter _].
    destruct Hafter as (r & st' & F & Hrun & Hl & Hq); [lia|].
    exists r, st', F. split; [|split; assumption].
    intros fuel Hf. unfold visit. rewrite Hstep. cbn [mbind outcome_bind]. apply Hrun, Hf.
Qed.

(** [toJSON] on a well-ranked graph: with a large enough recursion budget it
    returns, always the same result, and the graph is still there. *)
Lemma toJSON_ends (v : value) :
  closed_value (List.length h0) v ->
  exists F r h',
    (forall fuel, F <= fuel -> toJSON call fuel h0 v invokeFns = Done (r, h'))
    /\ h0 `prefix_of` h'
    /\ (r = None -> effective h0 ret "" v = VUndefined).
Proof.
  intros Hv.
  destruct (visits_end_all (List.length h0) (2 * srank' v + 1) [] (State h0 ∅) "" v)
    as [_ Hvisit].
  - split; [reflexivity | split].
    + intros l Hl. inversion Hl.
    + apply unseen_le_length.
  - exact Hv.
  - destruct Hvisit as (r & st' & F & Hrun & Hl & Hq); [reflexivity|].
    exists F, r, (st_heap st'). split; [|split; [apply Hl | exact Hq]].
    intros fuel Hf. specialize (Hrun fuel Hf). unfold visit in Hrun.
    unfold toJSON, toJSON_fuel.
    destruct (call_toJSON call (State h0 ∅) "" v) as [[v1 st1]| |]; try discriminate.
    cbn [mbind outcome_bind] in *. rewrite Hrun. reflexivity.
Qed.

End Termination.

(** ** Inputs on which [toJSON] does not return *)

(** With [const f = () => f], [toJSON(f, true)] invokes [f], wraps the
    result, meets [f] again inside the wrapper, and so on: functions are
    never recorded in [seen]. *)
Lemma self_returning_function_visit :
  forall fuel,
    toJSON (fun _ h _ _ => Returns (VRef 0) h) fuel [OFunction 0 0] (VRef 0) true = OutOfFuel.
Proof.
  intros fuel. unfold toJSON, toJSON_fuel.
  rewrite call_toJSON_none by reflexivity. cbn [mbind outcome_bind].
  enough (Hgen : forall stack h seen,
             h !! 0 = Some (OFunction 0 0) ->
             Forall (fun l => l < List.length h) stack ->
             SerializeJSONProperty (fun _ h _ _ => Returns (VRef 0) h) true fuel stack
               (State h seen) (VRef 0) = OutOfFuel).
  { rewrite Hgen; [reflexivity | reflexivity | constructor]. }
  induction fuel as [|fuel IH]; intros stack h seen Hl Hstack; [reflexivity|].
  assert (Hpos : 0 < List.length h) by (eapply lookup_lt_Some; exact Hl).
  rewrite (replaced_object _ _ fuel stack (State h seen)
             (State (h ++ [OObject [("kind", VString "Function"); ("result", VRef 0)]]) seen)
             (VRef 0) (List.length h) [("kind", VString "Function"); ("result", VRef 0)]).
  2:{ apply replacer_invokes with (body := 0); [exact Hl | reflexivity | reflexivity]. }
  2:{ apply list_lookup_middle. reflexivity. }
  2:{ intros Hin. rewrite Forall_forall in Hstack. specialize (Hstack _ Hin). lia. }
  cbn [fmap list_fmap fst].
  rewrite serialize_properties_cons. cbn [st_heap]. rewrite GetProp_fresh.
  rewrite visit_none by reflexivity.
  destruct fuel as [|fuel]; [reflexivity|].
  rewrite (SerializeJSONProperty_S _ _ fuel). cbn [assoc String.eqb Ascii.eqb Bool.eqb].
  cbn [replacer mbind outcome_bind].
  rewrite serialize_properties_cons. cbn [st_heap]. rewrite GetProp_fresh.
  replace (assoc "result" [("kind", VString "Function"); ("result", VRef 0)])
    with (VRef 0) by reflexivity.
  rewrite visit_none.
  2:{ eapply toJSON_method_not_object;
        [cbn [st_heap]; rewrite lookup_app_l by assumption; exact Hl | discriminate]. }
  rewrite IH; [reflexivity | |].
  - rewrite lookup_app_l by assumption. exact Hl.
  - rewrite length_app. cbn. constructor; [lia|].
    eapply Forall_impl; [exact Hstack|]. cbn. intros; lia.
Qed.

(** For [m = new Map(); m.set("k", m)]: each visit of [m] builds a new
    wrapper around new arrays, none of which is in [seen], and [m] itself is
    never recorded, so the visit of [m] inside them starts over. *)
Lemma self_containing_map_visit call invokeFns fuel :
  forall stack (h : heap) (seen : gmap (option loc) nat),
    h !! 0 = Some (OMap [(VString "k", VRef 0)]) ->
    (forall l, is_Some (seen !! Some l) -> 0 < l < List.length h) ->
    Forall (fun l => l < List.length h) stack ->
    SerializeJSONProperty call invokeFns fuel stack (State h seen) (VRef 0) = OutOfFuel.
Proof.
  induction fuel as [fuel IH] using lt_wf_ind. intros stack h seen Hm Hseen Hstack.
  destruct fuel as [|f]; [reflexivity|].
  assert (Hpos : 0 < List.length h) by (eapply lookup_lt_Some; exact Hm).
  assert (Hnone : forall l, ~ 0 < l < List.length h -> seen !! Some l = None).
  { intros l Hl. destruct (seen !! Some l) eqn:E; [|reflexivity].
    exfalso. apply Hl, Hseen. rewrite E. eauto. }
  rewrite SerializeJSONProperty_S.
  unfold replacer, object_branch, alloc; cbn [st_heap st_seen].
  rewrite Hm, (Hnone 0) by lia. cbn [alloc_entries alloc mbind outcome_bind st_heap].
  set (P := OArray [VString "k"; VRef 0]).
  set (A := OArray [VRef (List.length h)]).
  set (h1 := h ++ [P]). set (h2 := h1 ++ [A]).
  set (W := OObject [("kind", VString "Map"); ("value", VRef (List.length h1))]).
  set (h3 := h2 ++ [W]).
  assert (Hlen1 : List.length h1 = S (List.length h)) by (unfold h1; rewrite length_app; cbn; lia).
  assert (Hlen2 : List.length h2 = S (S (List.length h)))
    by (unfold h2; rewrite length_app; cbn; lia).
  assert (Hlen3 : List.length h3 = S (S (S (List.length h))))
    by (unfold h3; rewrite length_app; cbn; lia).
  assert (HW : h3 !! List.length h2 = Some W) by (apply list_lookup_middle; reflexivity).
  assert (HA : h3 !! List.length h1 = Some A).
  { unfold h3. rewrite lookup_app_l by lia. apply list_lookup_middle. reflexivity. }
  assert (HP : h3 !! List.length h = Some P).
  { unfold h3. rewrite lookup_app_l by lia. unfold h2. rewrite lookup_app_l by lia.
    apply list_lookup_middle. reflexivity. }
  assert (Hm3 : h3 !! 0 = Some (OMap [(VString "k", VRef 0)])).
  { unfold h3. rewrite lookup_app_l by lia. unfold h2. rewrite lookup_app_l by lia.
    unfold h1. rewrite lookup_app_l by lia. exact Hm. }
  assert (Hfresh : forall l, List.length h <= l -> l ∉ stack).
  { intros l Hl Hin. rewrite Forall_forall in Hstack. specialize (Hstack _ Hin). lia. }
  rewrite HW. unfold W at 1 2. rewrite bool_decide_eq_false_2 by (apply Hfresh; lia).
  cbn [fmap list_fmap fst].
  rewrite serialize_properties_cons. cbn [st_heap].
  rewrite (GetProp_lookup h3 _ _ "kind" HW). cbn [assoc String.eqb Ascii.eqb Bool.eqb].
  rewrite visit_none by reflexivity.
  destruct f as [|f]; [reflexivity|].
  rewrite (SerializeJSONProperty_S _ _ f). cbn [replacer mbind outcome_bind st_heap].
  rewrite serialize_properties_cons. cbn [st_heap].
  rewrite (GetProp_lookup h3 _ _ "value" HW).
  replace (assoc "value" [("kind", VString "Map"); ("value", VRef (List.length h1))])
    with (VRef (List.length h1)) by reflexivity.
  rewrite visit_none by (eapply toJSON_method_not_object; [exact HA | discriminate]).
  rewrite first_visit_array with (es := [VRef (List.length h)]);
    [| exact HA | apply Hnone; lia
     | intros [E|Hin]%elem_of_cons; [lia | revert Hin; apply Hfresh; lia]].
  cbn [List.length seq].
  rewrite serialize_elements_cons. cbn [st_heap].
  rewrite (GetIndex_lookup h3 _ _ 0 HA). cbn [nth].
  rewrite visit_none by (eapply toJSON_method_not_object; [exact HP | discriminate]).
  destruct f as [|f]; [reflexivity|].
  rewrite first_visit_array with (es := [VString "k"; VRef 0]);
    [| exact HP
     | rewrite lookup_insert_ne by (intros [=]; lia); apply Hnone; lia
     | intros [E|[E|Hin]%elem_of_cons]%elem_of_cons;
       [lia | lia | revert Hin; apply Hfresh; lia]].
  cbn [List.length seq].
  rewrite serialize_elements_cons. cbn [st_heap].
  rewrite (GetIndex_lookup h3 _ _ 0 HP). cbn [nth].
  rewrite visit_none by reflexivity.
  destruct f as [|f]; [reflexivity|].
  rewrite (SerializeJSONProperty_S _ _ f). cbn [replacer mbind outcome_bind st_heap].
  rewrite serialize_elements_cons. cbn [st_heap].
  rewrite (GetIndex_lookup h3 _ _ 1 HP). cbn [nth].
  rewrite visit_none by (eapply toJSON_method_not_object; [exact Hm3 | discriminate]).
  rewrite IH; [reflexivity | lia | exact Hm3 | |].
  - intros l [x Hx]. rewrite Hlen3.
    destruct (decide (l = List.length h)) as [->|Hne1]; [lia|].
    destruct (decide (l = List.length h1)) as [->|Hne2]; [lia|].
    rewrite !lookup_insert_ne in Hx by congruence.
    destruct (Hseen l) as [? ?]; [eauto | lia].
  - rewrite Hlen3. repeat (apply Forall_cons; split; [lia|]).
    eapply Forall_impl; [exact Hstack|]. cbn. intros; lia.
Qed.


(** ** Termination of [toJSON] *)







(** ** Self-reference *)

Lemma assoc_NoDup (fs : list (string * value)) (k : string) (v : value) :
  NoDup fs.*1 -> (k, v) ∈ fs -> assoc k fs = v.
Proof.
  induction fs as [|[k' v'] fs IH]; cbn; intros Hnd Hin; [inversion Hin|].
  apply NoDup_cons in Hnd as [Hk' Hnd].
  apply elem_of_cons in Hin as [[= -> ->]|Hin].
  - rewrite String.eqb_refl. reflexivity.
  - destruct (String.eqb_spec k k') as [->|_]; [|auto].
    exfalso. apply Hk'. apply list_elem_of_fmap. exists (k', v). split; [reflexivity|assumption].
Qed.

Lemma assoc_key (fs : list (string * value)) (k : string) :
  assoc k fs <> VUndefined -> k ∈ fs.*1.
Proof.
  induction fs as [|[k' v'] fs IH]; cbn; intros H; [contradiction|].
  destruct (String.eqb_spec k k') as [->|_]; [left | right; auto].
Qed.

Lemma assoc_scalar (fs : list (string * value)) (k : string) :
  Forall (fun kv => scalar kv.2) fs -> forall f, assoc k fs <> VRef f.
Proof.
  induction fs as [|[k' v'] fs IH]; cbn; intros H f; [discriminate|].
  apply Forall_cons in H as [Hv H]. cbn in Hv.
  destruct (String.eqb k k'); [|auto]. intros ->. exact Hv.
Qed.

Lemma scalar_visit call invokeFns fuel stack st (v : value) :
  scalar v ->
  SerializeJSONProperty call invokeFns (S fuel) stack st v = Done (scalar_text v, st).
Proof. destruct v as [| |[]| | |]; cbn; intros H; try contradiction; reflexivity. Qed.

(** The members of an object whose properties are scalars. *)
Lemma scalar_fields_loop call invokeFns fuel stack (h : heap) seen (a : loc) fs K :
  h !! a = Some (OObject fs) ->
  (forall kv, kv ∈ K -> assoc kv.1 fs = kv.2 /\ scalar kv.2) ->
  serialize_properties call (SerializeJSONProperty call invokeFns (S fuel) stack) a K.*1
    (State h seen)
  = Done (omap self_member K, State h seen).
Proof.
  intros Ha. induction K as [|[k v] K IH]; intros HK; [reflexivity|].
  cbn [fmap list_fmap fst]. rewrite serialize_properties_cons. cbn [st_heap].
  destruct (HK (k, v)) as [Hget Hsc]; [left|]. cbn in Hget, Hsc.
  rewrite (GetProp_lookup _ _ _ _ Ha), Hget.
  rewrite visit_none
    by (apply toJSON_method_primitive; intros l ->; exact Hsc).
  rewrite scalar_visit by assumption.
  cbn [mbind outcome_bind]. rewrite IH by (intros kv Hkv; apply HK; right; exact Hkv).
  cbn [mbind outcome_bind omap list_omap].
  unfold self_member; cbn [fst snd].
  destruct v as [| |[]| | |]; try contradiction; reflexivity.
Qed.

Lemma scalar_fields_text call invokeFns fuel (h : heap) (a : loc) (fs : list (string * value)) :
  h !! a = Some (OObject fs) ->
  NoDup fs.*1 ->
  Forall (fun kv => scalar kv.2) fs ->
  toJSON call (2 + fuel) h (VRef a) invokeFns
  = Done (Some ("{" +:+ join_comma (omap self_member fs) +:+ "}"), h).
Proof.
  intros Ha Hnd Hfs. unfold toJSON, toJSON_fuel. cbn [Nat.add].
  rewrite call_toJSON_none
    by (eapply toJSON_method_no_key; [exact Ha | apply assoc_scalar; exact Hfs]).
  cbn [mbind outcome_bind].
  rewrite first_visit_object with (fs := fs);
    [| assumption | reflexivity | intros Hin; inversion Hin].
  rewrite scalar_fields_loop with (fs := fs); [reflexivity | assumption |].
  intros [k' v'] Hin. split.
  - cbn. apply assoc_NoDup; assumption.
  - rewrite Forall_forall in Hfs. exact (Hfs _ Hin).
Qed.

Lemma serialize_properties_app call rec (l : loc) (K1 K2 : list string) : forall st,
  serialize_properties call rec l (K1 ++ K2) st
  = '(p1, st1) ← serialize_properties call rec l K1 st;
    '(p2, st2) ← serialize_properties call rec l K2 st1;
    Done (p1 ++ p2, st2).
Proof.
  induction K1 as [|P K1 IH]; intros st; cbn [app serialize_properties].
  - cbn [mbind outcome_bind].
    destruct (serialize_properties call rec l K2 st) as [[p2 st2]| |]; reflexivity.
  - destruct (call_toJSON call st P (GetProp (st_heap st) l P)) as [[v st0]| |];
      cbn [mbind outcome_bind]; try reflexivity.
    destruct (rec st0 v) as [[strP st1]| |]; cbn [mbind outcome_bind]; try reflexivity.
    rewrite IH.
    destruct (serialize_properties call rec l K1 st1) as [[p1 st1']| |];
      cbn [mbind outcome_bind]; try reflexivity.
    destruct (serialize_properties call rec l K2 st1') as [[p2 st2]| |];
      cbn [mbind outcome_bind]; try reflexivity.
    destruct strP; reflexivity.
Qed.

(** For [m = new Map(); m.set("k", m)] and [a = { self: a, m: m }],
    [toJSON(a)] writes the marker for [self] and then never comes back from
    [m]. *)
Lemma self_reference_beside_cyclic_map_visit :
  forall fuel,
    toJSON no_calls fuel
      [OMap [(VString "k", VRef 0)]; OObject [("self", VRef 1); ("m", VRef 0)]]
      (VRef 1) false
    = OutOfFuel.
Proof.
  intros fuel. unfold toJSON, toJSON_fuel.
  rewrite call_toJSON_none by reflexivity. cbn [mbind outcome_bind].
  destruct fuel as [|[|fuel]]; [reflexivity | reflexivity |].
  rewrite first_visit_object with (fs := [("self", VRef 1); ("m", VRef 0)]);
    [| reflexivity | reflexivity | intros Hin; inversion Hin].
  cbn [fmap list_fmap fst].
  rewrite serialize_properties_cons. cbn [st_heap].
  change (GetProp _ 1 "self") with (VRef 1).
  rewrite visit_none by reflexivity.
  erewrite revisit_marker; [| reflexivity | discriminate | reflexivity].
  cbn [mbind outcome_bind].
  rewrite serialize_properties_cons. cbn [st_heap].
  change (GetProp _ 1 "m") with (VRef 0).
  rewrite visit_none by reflexivity.
  rewrite self_containing_map_visit; [reflexivity | reflexivity | |].
  - intros l [x Hx]. destruct (decide (l = 1)) as [->|Hne]; [cbn; lia|].
    rewrite lookup_insert_ne in Hx by congruence.
    rewrite lookup_empty in Hx. discriminate.
  - repeat constructor.
Qed.




(** ** Functions *)

Lemma append_assoc (a b c : string) : (a +:+ b) +:+ c = a +:+ b +:+ c.
Proof.
  induction a as [|x a IH]; [reflexivity|].
  change (String x ((a +:+ b) +:+ c) = String x (a +:+ b +:+ c)).
  rewrite IH. reflexivity.
Qed.

Lemma quote_body_app (a b : string) : quote_body (a +:+ b) = quote_body a +:+ quote_body b.
Proof.
  induction a as [|c a IH]; [reflexivity|].
  change (quote_char c +:+ quote_body (a +:+ b)
          = (quote_char c +:+ quote_body a) +:+ quote_body b).
  rewrite IH. symmetry. apply append_assoc.
Qed.

Lemma quote_body_digits (n : nat) : quote_body (nat_to_string n) = nat_to_string n.
Proof.
  unfold nat_to_string.
  assert (H : forall d, quote_body (NilEmpty.string_of_uint d) = NilEmpty.string_of_uint d).
  { induction d; cbn [NilEmpty.string_of_uint quote_body]; [reflexivity|..];
      rewrite IHd; reflexivity. }
  destruct (Nat.to_uint n) eqn:E; [reflexivity|..]; rewrite <- E;
    unfold NilZero.string_of_uint; rewrite E, <- E; apply H.
Qed.

(** The placeholder contains nothing that [QuoteJSONString] escapes. *)
Lemma function_marker_quoted (n : nat) :
  QuoteJSONString (function_marker n)
  = text "'[[ function params=" +:+ nat_to_string n +:+ text " ]]'".
Proof.
  unfold QuoteJSONString, function_marker.
  rewrite !quote_body_app, quote_body_digits, !append_assoc. reflexivity.
Qed.

(** C8. A function [f] met during the traversal: when the flag is set and
    [f] declares no parameter, [f] is called and written as the record
    [{"kind":"Function","result":<r>}], [<r>] being the encoding of the
    value the call returned, visited as the property [result] of that
    record (the member is left out when that encoding is [undefined]); in
    every other case [f] is written as the string literal
    ["[[ function params=<N> ]]"], [N] its declared parameter count. *)
Theorem function_encoding :
  forall call invokeFns fuel stack (h : heap) seen (f : loc) (N : nat) (body : fid),
    h !! f = Some (OFunction N body) ->
    (N = 0 /\ invokeFns = true ->
     forall r h1,
       call body h VUndefined [] = Returns r h1 ->
       List.length h1 ∉ stack ->
       SerializeJSONProperty call invokeFns (2 + fuel) stack (State h seen) (VRef f)
       = '(enc, st) ← visit call invokeFns (1 + fuel) (List.length h1 :: stack)
                         (State (h1 ++ [OObject [("kind", VString "Function"); ("result", r)]])
                                seen) "result" r;
         Done (Some (match enc with
                     | Some s => text "{'kind':'Function','result':" +:+ s +:+ "}"
                     | None => text "{'kind':'Function'}"
                     end), st))
    /\ (N <> 0 \/ invokeFns = false ->
        SerializeJSONProperty call invokeFns (1 + fuel) stack (State h seen) (VRef f)
        = Done (Some (text "'[[ function params=" +:+ nat_to_string N +:+ text " ]]'"),
                State h seen)).
Proof.
  intros call invokeFns fuel stack h seen f N body Hf. split.
  - intros [-> ->] r h1 Hcall Hstack. cbn [Nat.add].
    rewrite SerializeJSONProperty_S. unfold replacer, alloc; cbn [st_heap st_seen].
    rewrite Hf, Hcall. cbn [Nat.eqb andb mbind outcome_bind st_heap].
    rewrite list_lookup_middle by reflexivity.
    rewrite bool_decide_eq_false_2 by assumption.
    cbn [fmap list_fmap fst].
    rewrite serialize_properties_cons. cbn [st_heap]. rewrite GetProp_fresh.
    rewrite visit_none by reflexivity.
    rewrite (SerializeJSONProperty_S _ _ fuel). cbn [assoc String.eqb Ascii.eqb Bool.eqb].
    cbn [replacer mbind outcome_bind st_heap].
    rewrite serialize_properties_cons. cbn [st_heap]. rewrite GetProp_fresh.
    replace (assoc "result" [("kind", VString "Function"); ("result", r)])
      with r by reflexivity.
    destruct (visit call true (S fuel) _ _ "result" r) as [[[s|] st]| |];
      reflexivity.
  - intros Hother. cbn [Nat.add].
    rewrite SerializeJSONProperty_S. unfold replacer; cbn [st_heap st_seen].
    rewrite Hf.
    assert (Hcond : (N =? 0) && invokeFns = false).
    { destruct Hother as [HN| ->]; [|apply andb_false_r].
      apply Nat.eqb_neq in HN. rewrite HN. reflexivity. }
    rewrite Hcond. cbn [mbind outcome_bind].
    fold (function_marker N). rewrite function_marker_quoted. reflexivity.
Qed.

Lemma function_encoding_witness :
  SerializeJSONProperty (fun _ h _ _ => Returns (VNumber 5) h) true 2 [] (State [OFunction 0 0] ∅)
    (VRef 0)
  = Done (Some (text "{'kind':'Function','result':5}"),
          State [OFunction 0 0; OObject [("kind", VString "Function"); ("result", VNumber 5)]] ∅)
  /\ SerializeJSONProperty (fun _ h _ _ => Returns (VNumber 5) h) true 1 [] (State [OFunction 2 0] ∅)
       (VRef 0)
     = Done (Some (text "'[[ function params=2 ]]'"), State [OFunction 2 0] ∅).
Proof.
  split.
  - etrans.
    + apply (function_encoding (fun _ h _ _ => Returns (VNumber 5) h) true 0 [] [OFunction 0 0] ∅
               0 0 0 eq_refl); [split; reflexivity | reflexivity | apply not_elem_of_nil].
    + reflexivity.
  - apply (function_encoding (fun _ h _ _ => Returns (VNumber 5) h) true 0 [] [OFunction 2 0] ∅
             0 2 0 eq_refl). left. discriminate.
Defined.

(** ** What every visit preserves *)

Section Preservation.

Variable call : fid -> heap -> value -> list value -> call_result.
Variable invokeFns : bool.
Variable R : state -> state -> Prop.
Hypothesis R_refl : forall st, R st st.
Hypothesis R_trans : forall st1 st2 st3, R st1 st2 -> R st2 st3 -> R st1 st3.
Hypothesis R_replacer :
  forall st v v' st', replacer call invokeFns st v = Done (v', st') -> R st st'.
Hypothesis R_method :
  forall st key v v' st', call_toJSON call st key v = Done (v', st') -> R st st'.

Lemma serialize_properties_preserves rec l K :
  (forall st v r st', rec st v = Done (r, st') -> R st st') ->
  forall st parts st', serialize_properties call rec l K st = Done (parts, st') -> R st st'.
Proof.
  intros Hrec. induction K as [|P K IH]; intros st parts st'; cbn [serialize_properties].
  - intros [= <- <-]. apply R_refl.
  - destruct (call_toJSON call st P (GetProp (st_heap st) l P)) as [[v st0]| |] eqn:E0;
      try discriminate.
    cbn [mbind outcome_bind].
    destruct (rec st0 v) as [[strP st1]| |] eqn:E1; try discriminate.
    cbn [mbind outcome_bind].
    destruct (serialize_properties call rec l K st1) as [[partial st2]| |] eqn:E2; try discriminate.
    cbn [mbind outcome_bind]. intros [= <- <-].
    eapply R_trans; [eapply R_method, E0|].
    eapply R_trans; [eapply Hrec, E1 | eapply IH, E2].
Qed.

Lemma serialize_elements_preserves rec l indices :
  (forall st v r st', rec st v = Done (r, st') -> R st st') ->
  forall st parts st', serialize_elements call rec l indices st = Done (parts, st') -> R st st'.
Proof.
  intros Hrec. induction indices as [|i indices IH]; intros st parts st';
    cbn [serialize_elements].
  - intros [= <- <-]. apply R_refl.
  - destruct (call_toJSON call st (nat_to_string i) (GetIndex (st_heap st) l i))
      as [[v st0]| |] eqn:E0; try discriminate.
    cbn [mbind outcome_bind].
    destruct (rec st0 v) as [[strP st1]| |] eqn:E1; try discriminate.
    cbn [mbind outcome_bind].
    destruct (serialize_elements call rec l indices st1) as [[partial st2]| |] eqn:E2;
      try discriminate.
    cbn [mbind outcome_bind]. intros [= <- <-].
    eapply R_trans; [eapply R_method, E0|].
    eapply R_trans; [eapply Hrec, E1 | eapply IH, E2].
Qed.

Lemma SerializeJSONProperty_preserves fuel :
  forall stack st v r st',
    SerializeJSONProperty call invokeFns fuel stack st v = Done (r, st') -> R st st'.
Proof.
  induction fuel as [|fuel IH]; intros stack st v r st'; [discriminate|].
  rewrite SerializeJSONProperty_S.
  destruct (replacer call invokeFns st v) as [[v1 st1]| |] eqn:E; try discriminate.
  apply R_replacer in E. cbn [mbind outcome_bind].
  destruct v1 as [| |[]| | |l]; try (intros [= <- <-]; exact E).
  destruct (st_heap st1 !! l) as [[fs|es|entries|es|N body]|]; try discriminate;
    try (intros [= <- <-]; exact E);
    destruct (bool_decide (l ∈ stack)); try discriminate.
  - destruct (serialize_properties _ _ l _ st1) as [[partial st2]| |] eqn:E2; try discriminate.
    cbn [mbind outcome_bind]. intros [= <- <-].
    eapply R_trans; [exact E|]. eapply serialize_properties_preserves; [apply IH | exact E2].
  - destruct (serialize_elements _ _ l _ st1) as [[partial st2]| |] eqn:E2; try discriminate.
    cbn [mbind outcome_bind]. intros [= <- <-].
    eapply R_trans; [exact E|]. eapply serialize_elements_preserves; [apply IH | exact E2].
  - destruct (serialize_properties _ _ l _ st1) as [[partial st2]| |] eqn:E2; try discriminate.
    cbn [mbind outcome_bind]. intros [= <- <-].
    eapply R_trans; [exact E|]. eapply serialize_properties_preserves; [apply IH | exact E2].
  - destruct (serialize_properties _ _ l _ st1) as [[partial st2]| |] eqn:E2; try discriminate.
    cbn [mbind outcome_bind]. intros [= <- <-].
    eapply R_trans; [exact E|]. eapply serialize_properties_preserves; [apply IH | exact E2].
Qed.

Lemma visit_preserves fuel stack st key v r st' :
  visit call invokeFns fuel stack st key v = Done (r, st') -> R st st'.
Proof.
  unfold visit.
  destruct (call_toJSON call st key v) as [[v0 st0]| |] eqn:E0; try discriminate.
  cbn [mbind outcome_bind]. intros E.
  eapply R_trans; [eapply R_method, E0 | eapply SerializeJSONProperty_preserves, E].
Qed.

End Preservation.

(** ** The heap only grows *)

Lemma alloc_entries_prefix (h : heap) (entries : list (value * value)) :
  h `prefix_of` (alloc_entries h entries).2.
Proof.
  revert h. induction entries as [|[k v] entries IH]; intros h; cbn; [reflexivity|].
  specialize (IH (h ++ [OArray [k; v]])).
  destruct (alloc_entries (h ++ [OArray [k; v]]) entries) as [ps h2]. cbn in *.
  etrans; [|exact IH]. apply prefix_app_r. reflexivity.
Qed.

(** Objects that are neither functions nor carriers of a [toJSON] method
    add nothing to what can be called. *)
Lemma calls_in_app (invokeFns : bool) (P : fid -> Prop) (h news : heap) :
  calls_in invokeFns P h -> Forall built_by_replacer news ->
  calls_in invokeFns P (h ++ news).
Proof.
  intros HI Hnews body Hbody. apply HI. rewrite Forall_forall in Hnews.
  destruct Hbody as [[Hflag [l Hl]] | [l Hm]].
  - left. split; [exact Hflag|]. exists l.
    apply lookup_app_Some in Hl as [Hl|[_ Hl]]; [exact Hl|].
    apply list_elem_of_lookup_2, Hnews in Hl. contradiction.
  - right. exists l. unfold toJSON_method in *.
    destruct ((h ++ news) !! l) as [[fs| | | |]|] eqn:Hl; try discriminate.
    destruct (assoc "toJSON" fs) as [| | | | |f] eqn:Ha; try discriminate.
    destruct ((h ++ news) !! f) as [[| | | |N body']|] eqn:Hf; try discriminate.
    apply lookup_app_Some in Hf as [Hf|[_ Hf]].
    2:{ apply list_elem_of_lookup_2, Hnews in Hf. contradiction. }
    apply lookup_app_Some in Hl as [Hl|[_ Hl]].
    + rewrite Hl, Ha, Hf. exact Hm.
    + apply list_elem_of_lookup_2, Hnews in Hl. cbn in Hl. destruct (Hl f Ha).
Qed.

Lemma pair_arrays_built (entries : list (value * value)) :
  Forall built_by_replacer (pair_arrays entries).
Proof. unfold pair_arrays. apply Forall_fmap, Forall_forall. intros kv _. exact I. Qed.

Section Growth.

Variable call : fid -> heap -> value -> list value -> call_result.
Variable invokeFns : bool.
Variable P : fid -> Prop.
Hypothesis call_free : side_effect_free call invokeFns P.

Local Abbreviation Inv := (calls_in invokeFns P).

Lemma replacer_extends st v v' st' :
  replacer call invokeFns st v = Done (v', st') -> Inv (st_heap st) ->
  st_heap st `prefix_of` st_heap st' /\ Inv (st_heap st').
Proof.
  destruct st as [h seen]. unfold replacer, object_branch, alloc; cbn [st_heap st_seen].
  destruct v as [| | | | |l]; try (intros [= <- <-] HI; split; [reflexivity | exact HI]).
  - destruct (seen !! None); intros [= <- <-] HI; (split; [reflexivity | exact HI]).
  - destruct (h !! l) as [[fs|es|entries|es|N body]|] eqn:Hl; try discriminate.
    + destruct (seen !! Some l); intros [= <- <-] HI; (split; [reflexivity | exact HI]).
    + destruct (seen !! Some l); intros [= <- <-] HI; (split; [reflexivity | exact HI]).
    + destruct (seen !! Some l); [intros [= <- <-] HI; split; [reflexivity | exact HI]|].
      rewrite alloc_entries_spec. intros [= <- <-] HI. cbn [st_heap].
      rewrite <- !(assoc_L app). split; [apply prefix_app_r; reflexivity|].
      apply calls_in_app; [exact HI|].
      rewrite !Forall_app. split; [apply pair_arrays_built|].
      split; apply Forall_singleton; [exact I | intros f; discriminate].
    + destruct (seen !! Some l); [intros [= <- <-] HI; split; [reflexivity | exact HI]|].
      intros [= <- <-] HI. cbn [st_heap].
      rewrite <- !(assoc_L app). split; [apply prefix_app_r; reflexivity|].
      apply calls_in_app; [exact HI|].
      rewrite !Forall_app. split; apply Forall_singleton; [exact I | intros f; discriminate].
    + destruct ((N =? 0) && invokeFns) eqn:Hflag;
        [|intros [= <- <-] HI; split; [reflexivity | exact HI]].
      apply andb_prop in Hflag as [HN Hflag]. apply Nat.eqb_eq in HN. subst N.
      destruct (call body h VUndefined []) as [r h1|] eqn:Ec; try discriminate.
      intros [= <- <-] HI. cbn [st_heap].
      destruct (call_free _ _ _ _ _ _ (HI body (or_introl (conj Hflag (ex_intro _ l Hl))))
                  HI Ec) as [Hpre HI1].
      split; [apply prefix_app_r; exact Hpre|].
      apply calls_in_app; [exact HI1|]. apply Forall_singleton. intros f. discriminate.
Qed.

Lemma call_toJSON_extends st key v v' st' :
  call_toJSON call st key v = Done (v', st') -> Inv (st_heap st) ->
  st_heap st `prefix_of` st_heap st' /\ Inv (st_heap st').
Proof.
  unfold call_toJSON. destruct (toJSON_method (st_heap st) v) as [body|] eqn:Hm;
    [|intros [= <- <-] HI; split; [reflexivity | exact HI]].
  destruct v as [| | | | |l]; try discriminate.
  destruct (call body (st_heap st) (VRef l) [VString key]) as [r h1|] eqn:Ec;
    try discriminate.
  intros [= <- <-] HI. cbn [st_heap].
  exact (call_free _ _ _ _ _ _ (HI body (or_intror (ex_intro _ l Hm))) HI Ec).
Qed.

Lemma SerializeJSONProperty_extends fuel :
  forall stack, keeps Inv (SerializeJSONProperty call invokeFns fuel stack).
Proof.
  intros stack st v r st'.
  apply (SerializeJSONProperty_preserves call invokeFns
           (fun st st' => Inv (st_heap st) ->
                          st_heap st `prefix_of` st_heap st' /\ Inv (st_heap st'))).
  - intros ? HI. split; [reflexivity | exact HI].
  - intros ? ? ? H1 H2 HI. destruct (H1 HI) as [Hp1 HI1]. destruct (H2 HI1) as [Hp2 HI2].
    split; [etrans; eassumption | exact HI2].
  - apply replacer_extends.
  - apply call_toJSON_extends.
Qed.

Lemma toJSON_extends fuel (h : heap) (v : value) r (h' : heap) :
  toJSON call fuel h v invokeFns = Done (r, h') -> Inv h -> h `prefix_of` h'.
Proof.
  unfold toJSON, toJSON_fuel. intros Hrun HI.
  destruct (call_toJSON call (State h ∅) "" v) as [[v0 st0]| |] eqn:E0; try discriminate.
  cbn [mbind outcome_bind] in Hrun.
  destruct (SerializeJSONProperty call invokeFns fuel [] st0 v0) as [[r1 st1]| |] eqn:E1;
    try discriminate.
  cbn [mbind outcome_bind] in Hrun. injection Hrun as <- <-.
  destruct (call_toJSON_extends _ _ _ _ _ E0 HI) as [Hp0 HI0].
  destruct (SerializeJSONProperty_extends _ _ _ _ _ _ E1 HI0) as [Hp1 _].
  etrans; eassumption.
Qed.

End Growth.

(** ** The output does not depend on where fresh objects land *)

Section Renaming.

Variables n k : nat.
Variable g : heap.
Hypothesis g_length : List.length g = k.

Local Abbreviation sl := (shift_loc n k).
Local Abbreviation sv := (shift_value n k).
Local Abbreviation so := (shift_obj n k).
Local Abbreviation sh := (shift_heap n k g).
Local Abbreviation ss := (kmap (M2 := gmap (option loc)) (fmap (M := option) (shift_loc n k))).

#[local] Instance shift_loc_inj : Inj (=) (=) (shift_loc n k).
Proof.
  intros a b. unfold shift_loc.
  destruct (Nat.ltb_spec a n), (Nat.ltb_spec b n); lia.
Qed.

Lemma shift_loc_old (l : loc) : l < n -> sl l = l.
Proof. intros H. unfold shift_loc. apply Nat.ltb_lt in H. rewrite H. reflexivity. Qed.

Lemma shift_loc_new (l : loc) : n <= l -> sl l = l + k.
Proof. intros H. unfold shift_loc. apply Nat.ltb_ge in H. rewrite H. reflexivity. Qed.

Lemma shift_value_closed (v : value) : closed_value n v -> sv v = v.
Proof. destruct v; cbn; try reflexivity. intros H. rewrite shift_loc_old by exact H. reflexivity. Qed.

Lemma shift_values_closed (vs : list value) : Forall (closed_value n) vs -> sv <$> vs = vs.
Proof.
  induction 1 as [|v vs Hv _ IH]; [reflexivity|].
  cbn. rewrite shift_value_closed by exact Hv. f_equal. exact IH.
Qed.

Lemma shift_obj_closed (o : obj) : closed_obj n o -> so o = o.
Proof.
  destruct o as [fs|es|entries|es|N body]; cbn; intros H.
  - f_equal. induction fs as [|[key v] fs IH]; [reflexivity|].
    cbn in H. apply Forall_cons in H as [Hv H].
    cbn. rewrite shift_value_closed by exact Hv. f_equal. apply IH, H.
  - f_equal. apply shift_values_closed, H.
  - f_equal. destruct H as [H1 H2]. induction entries as [|[a b] entries IH]; [reflexivity|].
    cbn in H1, H2. apply Forall_cons in H1 as [Ha H1]. apply Forall_cons in H2 as [Hb H2].
    cbn. rewrite !shift_value_closed by assumption. f_equal. apply IH; assumption.
  - f_equal. apply shift_values_closed, H.
  - reflexivity.
Qed.

Lemma length_shift_heap (h : heap) : n <= List.length h -> List.length (sh h) = List.length h + k.
Proof.
  intros H. unfold shift_heap.
  rewrite !length_app, !length_fmap, length_take, length_drop, g_length. lia.
Qed.

Lemma lookup_shift_heap (h : heap) (l : loc) :
  n <= List.length h -> sh h !! sl l = so <$> h !! l.
Proof.
  intros H. unfold shift_heap. destruct (Nat.lt_ge_cases l n) as [Hl|Hl].
  - rewrite shift_loc_old by exact Hl.
    rewrite lookup_app_l by (rewrite length_fmap, length_take; lia).
    rewrite list_lookup_fmap, lookup_take_lt by exact Hl. reflexivity.
  - rewrite shift_loc_new by exact Hl.
    rewrite lookup_app_r by (rewrite length_fmap, length_take; lia).
    rewrite lookup_app_r by (rewrite length_fmap, length_take; lia).
    rewrite length_fmap, length_take, g_length, list_lookup_fmap, lookup_drop.
    do 2 f_equal. lia.
Qed.

Lemma shift_heap_snoc (h : heap) (o : obj) :
  n <= List.length h -> sh (h ++ [o]) = sh h ++ [so o].
Proof.
  intros H. unfold shift_heap.
  rewrite take_app_le, drop_app_le by exact H.
  rewrite fmap_app, <- !(assoc_L app). reflexivity.
Qed.

Lemma shift_loc_length (h : heap) : n <= List.length h -> sl (List.length h) = List.length (sh h).
Proof. intros H. rewrite shift_loc_new, length_shift_heap by exact H. reflexivity. Qed.

Lemma assoc_shift (key : string) (fs : list (string * value)) :
  assoc key (prod_map id sv <$> fs) = sv (assoc key fs).
Proof.
  induction fs as [|[key' v] fs IH]; [reflexivity|].
  cbn. destruct (String.eqb key key'); [reflexivity | exact IH].
Qed.

Lemma nth_shift (i : nat) (es : list value) :
  nth i (sv <$> es) VUndefined = sv (nth i es VUndefined).
Proof.
  revert i. induction es as [|e es IH]; intros [|i]; cbn; try reflexivity. apply IH.
Qed.

Lemma GetProp_shift (h : heap) (l : loc) (key : string) :
  n <= List.length h -> GetProp (sh h) (sl l) key = sv (GetProp h l key).
Proof.
  intros H. unfold GetProp. rewrite lookup_shift_heap by exact H.
  destruct (h !! l) as [[fs|es|entries|es|N body]|]; cbn; try reflexivity.
  apply assoc_shift.
Qed.

Lemma GetIndex_shift (h : heap) (l : loc) (i : nat) :
  n <= List.length h -> GetIndex (sh h) (sl l) i = sv (GetIndex h l i).
Proof.
  intros H. unfold GetIndex. rewrite lookup_shift_heap by exact H.
  destruct (h !! l) as [[fs|es|entries|es|N body]|]; cbn; try reflexivity.
  apply nth_shift.
Qed.

Lemma lookup_shift_seen (seen : gmap (option loc) nat) (key : option loc) :
  ss seen !! (sl <$> key) = seen !! key.
Proof. apply (lookup_kmap (fmap (M := option) sl)). Qed.

Lemma lookup_shift_seen_null (seen : gmap (option loc) nat) : ss seen !! None = seen !! None.
Proof. exact (lookup_shift_seen seen None). Qed.

Lemma lookup_shift_seen_ref (seen : gmap (option loc) nat) (l : loc) :
  ss seen !! Some (sl l) = seen !! Some l.
Proof. exact (lookup_shift_seen seen (Some l)). Qed.

Lemma insert_shift_seen_null (seen : gmap (option loc) nat) (id : nat) :
  ss (<[None := id]> seen) = <[None := id]> (ss seen).
Proof. exact (kmap_insert (fmap (M := option) sl) seen None id). Qed.

Lemma insert_shift_seen_ref (seen : gmap (option loc) nat) (l : loc) (id : nat) :
  ss (<[Some l := id]> seen) = <[Some (sl l) := id]> (ss seen).
Proof. exact (kmap_insert (fmap (M := option) sl) seen (Some l) id). Qed.

Lemma size_shift_seen (seen : gmap (option loc) nat) : size (ss seen) = size seen.
Proof.
  induction seen as [|key id seen Hnone _ IH] using map_first_key_ind.
  - rewrite kmap_empty. reflexivity.
  - rewrite kmap_insert by apply _.
    rewrite !map_size_insert_None; [congruence | exact Hnone |].
    rewrite lookup_shift_seen. exact Hnone.
Qed.

Lemma alloc_entries_shift (h : heap) (entries : list (value * value)) :
  n <= List.length h ->
  alloc_entries (sh h) (prod_map sv sv <$> entries)
  = (sv <$> (alloc_entries h entries).1, sh (alloc_entries h entries).2).
Proof.
  revert h. induction entries as [|[a b] entries IH]; intros h H; [reflexivity|].
  cbn [fmap list_fmap prod_map fst snd alloc_entries alloc].
  rewrite <- shift_loc_length by exact H.
  change (sh h ++ [OArray [sv a; sv b]]) with (sh h ++ [so (OArray [a; b])]).
  rewrite <- shift_heap_snoc by exact H.
  rewrite IH by (rewrite length_app; lia).
  destruct (alloc_entries (h ++ [OArray [a; b]]) entries) as [ps h2]. reflexivity.
Qed.

Lemma toJSON_method_shift (h : heap) (v : value) :
  n <= List.length h -> toJSON_method (sh h) (sv v) = toJSON_method h v.
Proof.
  intros H. destruct v as [| | | | |l]; try reflexivity.
  cbn [shift_value]. unfold toJSON_method. rewrite lookup_shift_heap by exact H.
  destruct (h !! l) as [[fs|es|entries|es|N body]|];
    cbn [fmap option_fmap option_map shift_obj]; try reflexivity.
  rewrite assoc_shift.
  destruct (assoc "toJSON" fs) as [| | | | |f]; cbn [shift_value]; try reflexivity.
  rewrite lookup_shift_heap by exact H.
  destruct (h !! f) as [[| | | |]|]; reflexivity.
Qed.

Variable call : fid -> heap -> value -> list value -> call_result.
Variable invokeFns : bool.
Variable P : fid -> Prop.
Hypothesis call_free : side_effect_free call invokeFns P.
Hypothesis call_blind :
  forall body (h : heap) (this : value) (args : list value),
    P body ->
    n <= List.length h ->
    call body (sh h) (sv this) (sv <$> args) = shift_call n k g (call body h this args).

Local Abbreviation Inv := (calls_in invokeFns P).

Lemma replacer_shift st v :
  n <= List.length (st_heap st) ->
  Inv (st_heap st) ->
  replacer call invokeFns (shift_state n k g st) (sv v)
  = shift_replaced n k g (replacer call invokeFns st v).
Proof.
  destruct st as [h seen]. intros H HI. cbn [st_heap] in H, HI.
  unfold replacer, object_branch, shift_state; cbn [st_heap st_seen].
  destruct v as [| | | | |l]; cbn [shift_value]; try reflexivity.
  - rewrite lookup_shift_seen_null, size_shift_seen.
    destruct (seen !! None); unfold shift_replaced, shift_state; cbn [st_heap st_seen shift_value].
    + reflexivity.
    + rewrite insert_shift_seen_null. reflexivity.
  - rewrite lookup_shift_heap by exact H.
    destruct (h !! l) as [[fs|es|entries|es|N body]|] eqn:Hl;
      cbn [fmap option_fmap option_map shift_obj]; try reflexivity.
    + rewrite lookup_shift_seen_ref, size_shift_seen.
      destruct (seen !! Some l); unfold shift_replaced, shift_state; cbn [st_heap st_seen shift_value].
      * reflexivity.
      * rewrite insert_shift_seen_ref. reflexivity.
    + rewrite lookup_shift_seen_ref, size_shift_seen.
      destruct (seen !! Some l); unfold shift_replaced, shift_state; cbn [st_heap st_seen shift_value].
      * reflexivity.
      * rewrite insert_shift_seen_ref. reflexivity.
    + rewrite lookup_shift_seen_ref.
      destruct (seen !! Some l); [reflexivity|].
      rewrite alloc_entries_shift by exact H.
      pose proof (prefix_length _ _ (alloc_entries_prefix h entries)) as Hlen.
      destruct (alloc_entries h entries) as [ps h1]. cbn [fst snd] in *.
      unfold alloc. unfold shift_replaced, shift_state; cbn [st_heap st_seen shift_value].
      rewrite !shift_heap_snoc by (rewrite ?length_app; lia).
      rewrite !shift_loc_length by (rewrite ?length_app; lia).
      rewrite !shift_heap_snoc by (rewrite ?length_app; lia).
      cbn [shift_obj fmap list_fmap prod_map fst snd id shift_value].
      rewrite !shift_loc_length by (rewrite ?length_app; lia).
      reflexivity.
    + rewrite lookup_shift_seen_ref.
      destruct (seen !! Some l); [reflexivity|].
      unfold alloc. unfold shift_replaced, shift_state; cbn [st_heap st_seen shift_value].
      rewrite !shift_heap_snoc by (rewrite ?length_app; lia).
      rewrite !shift_loc_length by (rewrite ?length_app; lia).
      rewrite !shift_heap_snoc by (rewrite ?length_app; lia).
      cbn [shift_obj fmap list_fmap prod_map fst snd id shift_value].
      rewrite !shift_loc_length by (rewrite ?length_app; lia).
      reflexivity.
    + destruct ((N =? 0) && invokeFns) eqn:Hflag; [|reflexivity].
      apply andb_prop in Hflag as [HN Hflag]. apply Nat.eqb_eq in HN. subst N.
      assert (HP : P body) by (apply HI; left; eauto).
      change (call body (sh h) VUndefined [])
        with (call body (sh h) (sv VUndefined) (sv <$> [])).
      rewrite call_blind by assumption.
      destruct (call body h VUndefined []) as [r h1|] eqn:Ec; [|reflexivity].
      apply (call_free _ _ _ _ _ _ HP HI) in Ec as [Ec _]. apply prefix_length in Ec.
      cbn [shift_call].
      unfold alloc. unfold shift_replaced, shift_state; cbn [st_heap st_seen shift_value].
      rewrite shift_heap_snoc, shift_loc_length by lia.
      reflexivity.
Qed.

Lemma call_toJSON_shift st key v :
  n <= List.length (st_heap st) ->
  Inv (st_heap st) ->
  call_toJSON call (shift_state n k g st) key (sv v)
  = shift_replaced n k g (call_toJSON call st key v).
Proof.
  intros H HI. unfold call_toJSON.
  change (st_heap (shift_state n k g st)) with (sh (st_heap st)).
  rewrite toJSON_method_shift by exact H.
  destruct (toJSON_method (st_heap st) v) as [body|] eqn:Hm; [|reflexivity].
  assert (HP : P body).
  { destruct v as [| | | | |l]; try discriminate. apply HI. right. eauto. }
  change (call body (sh (st_heap st)) (sv v) [VString key])
    with (call body (sh (st_heap st)) (sv v) (sv <$> [VString key])).
  rewrite call_blind by assumption.
  destruct (call body (st_heap st) v [VString key]) as [r h1|]; reflexivity.
Qed.

Lemma serialize_properties_shift rec rec' l K :
  commutes n k g Inv rec rec' ->
  keeps Inv rec ->
  forall st,
    n <= List.length (st_heap st) ->
    Inv (st_heap st) ->
    serialize_properties call rec' (sl l) K (shift_state n k g st)
    = shift_outcome n k g (serialize_properties call rec l K st).
Proof.
  intros Hrec Hext. induction K as [|P' K IH]; intros st H HI; [reflexivity|].
  cbn [serialize_properties].
  change (st_heap (shift_state n k g st)) with (sh (st_heap st)).
  rewrite GetProp_shift, call_toJSON_shift by assumption.
  destruct (call_toJSON call st P' (GetProp (st_heap st) l P')) as [[v st0]| |] eqn:E0;
    try reflexivity.
  destruct (call_toJSON_extends call invokeFns P call_free _ _ _ _ _ E0 HI) as [Hp0 HI0].
  apply prefix_length in Hp0.
  cbn [shift_replaced mbind outcome_bind].
  rewrite Hrec by (lia || assumption).
  destruct (rec st0 v) as [[strP st1]| |] eqn:E1; try reflexivity.
  destruct (Hext _ _ _ _ E1 HI0) as [Hp1 HI1]. apply prefix_length in Hp1.
  cbn [shift_outcome mbind outcome_bind].
  rewrite IH by (lia || assumption).
  destruct (serialize_properties call rec l K st1) as [[partial st2]| |]; reflexivity.
Qed.

Lemma serialize_elements_shift rec rec' l indices :
  commutes n k g Inv rec rec' ->
  keeps Inv rec ->
  forall st,
    n <= List.length (st_heap st) ->
    Inv (st_heap st) ->
    serialize_elements call rec' (sl l) indices (shift_state n k g st)
    = shift_outcome n k g (serialize_elements call rec l indices st).
Proof.
  intros Hrec Hext. induction indices as [|i indices IH]; intros st H HI; [reflexivity|].
  cbn [serialize_elements].
  change (st_heap (shift_state n k g st)) with (sh (st_heap st)).
  rewrite GetIndex_shift, call_toJSON_shift by assumption.
  destruct (call_toJSON call st (nat_to_string i) (GetIndex (st_heap st) l i))
    as [[v st0]| |] eqn:E0; try reflexivity.
  destruct (call_toJSON_extends call invokeFns P call_free _ _ _ _ _ E0 HI) as [Hp0 HI0].
  apply prefix_length in Hp0.
  cbn [shift_replaced mbind outcome_bind].
  rewrite Hrec by (lia || assumption).
  destruct (rec st0 v) as [[strP st1]| |] eqn:E1; try reflexivity.
  destruct (Hext _ _ _ _ E1 HI0) as [Hp1 HI1]. apply prefix_length in Hp1.
  cbn [shift_outcome mbind outcome_bind].
  rewrite IH by (lia || assumption).
  destruct (serialize_elements call rec l indices st1) as [[partial st2]| |]; reflexivity.
Qed.

Lemma shift_stack_elem (l : loc) (stack : list loc) :
  bool_decide (sl l ∈ sl <$> stack) = bool_decide (l ∈ stack).
Proof. apply bool_decide_ext. apply (list_elem_of_fmap_inj sl). Qed.

Lemma SerializeJSONProperty_shift fuel :
  forall stack,
    commutes n k g Inv (SerializeJSONProperty call invokeFns fuel stack)
             (SerializeJSONProperty call invokeFns fuel (sl <$> stack)).
Proof.
  induction fuel as [|fuel IH]; intros stack st v H HI; [reflexivity|].
  rewrite !SerializeJSONProperty_S, replacer_shift by assumption.
  destruct (replacer call invokeFns st v) as [[v1 st1]| |] eqn:E; try reflexivity.
  destruct (replacer_extends call invokeFns P call_free _ _ _ _ E HI) as [Hp HI1].
  apply prefix_length in Hp.
  assert (H1 : n <= List.length (st_heap st1)) by lia.
  cbn [shift_replaced mbind outcome_bind].
  destruct v1 as [| |[]| | |l]; try reflexivity.
  cbn [shift_value].
  change (st_heap (shift_state n k g st1)) with (sh (st_heap st1)).
  rewrite lookup_shift_heap by exact H1.
  pose proof (SerializeJSONProperty_extends call invokeFns P call_free fuel (l :: stack))
    as Hext.
  specialize (IH (l :: stack)). rewrite fmap_cons in IH.
  destruct (st_heap st1 !! l) as [[fs|es|entries|es|N body]|];
    cbn [fmap option_fmap option_map shift_obj]; try reflexivity;
    rewrite shift_stack_elem; destruct (bool_decide (l ∈ stack)); try reflexivity.
  - rewrite <- list_fmap_compose.
    change (fst ∘ prod_map id sv) with (@fst string value).
    rewrite (serialize_properties_shift _ _ l _ IH Hext) by assumption.
    destruct (serialize_properties _ _ l _ st1) as [[partial st2]| |]; reflexivity.
  - rewrite length_fmap.
    rewrite (serialize_elements_shift _ _ l _ IH Hext) by assumption.
    destruct (serialize_elements _ _ l _ st1) as [[partial st2]| |]; reflexivity.
Qed.

(** The whole call: on the moved heap it returns the same text. *)
Lemma toJSON_shift fuel (h : heap) (v : value) :
  n <= List.length h ->
  Inv h ->
  toJSON call fuel (sh h) (sv v) invokeFns
  = match toJSON call fuel h v invokeFns with
    | Done (r, h') => Done (r, sh h')
    | Throws e => Throws e
    | OutOfFuel => OutOfFuel
    end.
Proof.
  intros H HI. unfold toJSON, toJSON_fuel.
  pose proof (call_toJSON_shift (State h ∅) "" v H HI) as Hstep.
  unfold shift_state in Hstep at 1. cbn [st_heap st_seen] in Hstep.
  rewrite kmap_empty in Hstep. rewrite Hstep.
  destruct (call_toJSON call (State h ∅) "" v) as [[v0 st0]| |] eqn:E0; try reflexivity.
  destruct (call_toJSON_extends call invokeFns P call_free _ _ _ _ _ E0 HI) as [Hp0 HI0].
  apply prefix_length in Hp0. cbn [st_heap] in Hp0.
  cbn [shift_replaced mbind outcome_bind].
  pose proof (SerializeJSONProperty_shift fuel [] st0 v0) as Hser.
  cbn [fmap list_fmap] in Hser. rewrite Hser by (lia || assumption).
  destruct (SerializeJSONProperty call invokeFns fuel [] st0 v0) as [[r st1]| |];
    reflexivity.
Qed.

End Renaming.

(** ** Determinism *)

Lemma shift_objs_closed (n k : nat) (h : heap) :
  Forall (closed_obj n) h -> shift_obj n k <$> h = h.
Proof.
  induction 1 as [|o h' Ho _ IH]; [reflexivity|].
  cbn. rewrite shift_obj_closed by exact Ho. f_equal. exact IH.
Qed.

Lemma shift_heap_closed (h w : heap) :
  closed_heap h -> shift_heap (List.length h) (List.length w) w h = h ++ w.
Proof.
  intros Hh. unfold shift_heap. rewrite firstn_all, skipn_all. cbn.
  rewrite app_nil_r. f_equal. apply shift_objs_closed, Hh.
Qed.



(** ** The registry during a traversal *)

Lemma replacer_seen_grows call invokeFns st v v' st' :
  replacer call invokeFns st v = Done (v', st') -> st_seen st ⊆ st_seen st'.
Proof.
  destruct st as [h seen]. unfold replacer, object_branch, alloc; cbn [st_heap st_seen].
  destruct v as [| | | | |l]; try (intros [= <- <-]; reflexivity).
  - destruct (seen !! None) eqn:E; intros [= <- <-]; [reflexivity|].
    apply insert_subseteq, E.
  - destruct (h !! l) as [[fs|es|entries|es|N body]|]; try discriminate.
    + destruct (seen !! Some l) eqn:E; intros [= <- <-]; [reflexivity|].
      apply insert_subseteq, E.
    + destruct (seen !! Some l) eqn:E; intros [= <- <-]; [reflexivity|].
      apply insert_subseteq, E.
    + destruct (seen !! Some l); [intros [= <- <-]; reflexivity|].
      destruct (alloc_entries h entries) as [ps h1]. intros [= <- <-]. reflexivity.
    + destruct (seen !! Some l); intros [= <- <-]; reflexivity.
    + destruct ((N =? 0) && invokeFns); [|intros [= <- <-]; reflexivity].
      destruct (call body h VUndefined []); [|discriminate]. intros [= <- <-]. reflexivity.
Qed.

Lemma call_toJSON_seen call st key v v' st' :
  call_toJSON call st key v = Done (v', st') -> st_seen st' = st_seen st.
Proof.
  unfold call_toJSON. destruct (toJSON_method (st_heap st) v) as [body|];
    [|intros [= <- <-]; reflexivity].
  destruct (call body (st_heap st) v [VString key]); [|discriminate].
  intros [= <- <-]. reflexivity.
Qed.

Lemma visit_seen_grows call invokeFns fuel stack st key v r st' :
  visit call invokeFns fuel stack st key v = Done (r, st') ->
  st_seen st ⊆ st_seen st'.
Proof.
  apply (visit_preserves call invokeFns (fun st st' => st_seen st ⊆ st_seen st')).
  - intros ?. reflexivity.
  - intros ? ? ? ? ?. etrans; eassumption.
  - intros ? ? ? ?. apply replacer_seen_grows.
  - intros ? ? ? ? ? H. apply call_toJSON_seen in H. rewrite H. reflexivity.
Qed.

(** Once a composite has its id, every later visit in the same call,
    whatever was traversed in between, is written as the marker carrying that
    id, and changes nothing, unless the composite has a [toJSON] method by
    then, which [JSON.stringify] calls before the replacer sees the value.
    (Only plain objects, arrays and [null] are ever given an id.) *)
Theorem recorded_composite_keeps_its_marker :
  forall call invokeFns fuel stack st key v r st' (l : loc) (id : nat) o fuel' stack' key',
    st_seen st !! Some l = Some id ->
    visit call invokeFns fuel stack st key v = Done (r, st') ->
    st_heap st' !! l = Some o ->
    (forall N body, o <> OFunction N body) ->
    toJSON_method (st_heap st') (VRef l) = None ->
    visit call invokeFns (S fuel') stack' st' key' (VRef l)
    = Done (Some (QuoteJSONString (cyclic_marker id)), st').
Proof.
  intros call invokeFns fuel stack st key v r st' l id o fuel' stack' key'
    Hid Hrun Ho Hfun Hmeth.
  apply visit_seen_grows in Hrun.
  rewrite visit_none by exact Hmeth.
  destruct st' as [h' seen']. cbn [st_heap st_seen] in *.
  eapply revisit_marker; [exact Ho | exact Hfun |].
  eapply lookup_weaken; eassumption.
Qed.

Lemma recorded_composite_keeps_its_marker_witness :
  visit no_calls false 1 [0]
    (State [OArray [VRef 1; VRef 2]; OObject []; OArray [VNull]]
           (<[None := 3]> (<[Some 2 := 2]> (<[Some 1 := 1]> {[Some 0 := 0]}))))
    "0" (VRef 1)
  = Done (Some (text "'[[ cyclic ref *1 ]]'"),
          State [OArray [VRef 1; VRef 2]; OObject []; OArray [VNull]]
                (<[None := 3]> (<[Some 2 := 2]> (<[Some 1 := 1]> {[Some 0 := 0]})))).
Proof.
  apply (recorded_composite_keeps_its_marker no_calls false 3 [0]
           (State [OArray [VRef 1; VRef 2]; OObject []; OArray [VNull]]
                  (<[Some 1 := 1]> {[Some 0 := 0]}))
           "1" (VRef 2) (Some "[null]") _ 1 1 (OObject []) 0 [0] "0").
  - reflexivity.
  - vm_compute. reflexivity.
  - reflexivity.
  - discriminate.
  - reflexivity.
Defined.

Lemma registry_ok_insert (seen : gmap (option loc) nat) (key : option loc) :
  seen !! key = None -> registry_ok seen -> registry_ok (<[key := size seen]> seen).
Proof.
  intros Hnone [Hlt Hinj]. split.
  - intros key' id. rewrite map_size_insert_None by exact Hnone.
    destruct (decide (key = key')) as [<-|Hne].
    + rewrite lookup_insert_eq. intros [= <-]. lia.
    + rewrite lookup_insert_ne by exact Hne. intros H. apply Hlt in H. lia.
  - intros key1 key2 id.
    destruct (decide (key = key1)) as [<-|Hne1], (decide (key = key2)) as [<-|Hne2];
      rewrite ?lookup_insert_eq, ?lookup_insert_ne by assumption.
    + reflexivity.
    + intros [= <-] H. apply Hlt in H. lia.
    + intros H [= <-]. apply Hlt in H. lia.
    + apply Hinj.
Qed.

Lemma replacer_registry_ok call invokeFns st v v' st' :
  replacer call invokeFns st v = Done (v', st') ->
  registry_ok (st_seen st) -> registry_ok (st_seen st').
Proof.
  destruct st as [h seen]. unfold replacer, object_branch, alloc; cbn [st_heap st_seen].
  destruct v as [| | | | |l]; try (intros [= <- <-]; exact id).
  - destruct (seen !! None) eqn:E; intros [= <- <-]; [exact id|].
    apply registry_ok_insert, E.
  - destruct (h !! l) as [[fs|es|entries|es|N body]|]; try discriminate.
    + destruct (seen !! Some l) eqn:E; intros [= <- <-]; [exact id|].
      apply registry_ok_insert, E.
    + destruct (seen !! Some l) eqn:E; intros [= <- <-]; [exact id|].
      apply registry_ok_insert, E.
    + destruct (seen !! Some l); [intros [= <- <-]; exact id|].
      destruct (alloc_entries h entries) as [ps h1]. intros [= <- <-]. exact id.
    + destruct (seen !! Some l); intros [= <- <-]; exact id.
    + destruct ((N =? 0) && invokeFns); [|intros [= <- <-]; exact id].
      destruct (call body h VUndefined []); [|discriminate]. intros [= <- <-]. exact id.
Qed.

(** The ids handed out during one call are [0, 1, 2, ...] without gaps or
    repetition: at any point every recorded id is below [seen.size] and no two
    recorded values share an id, so a marker names one value only. *)
Theorem registry_ids_are_distinct :
  forall call invokeFns fuel (h : heap) v r st',
    SerializeJSONProperty call invokeFns fuel [] (State h ∅) v = Done (r, st') ->
    registry_ok (st_seen st').
Proof.
  intros call invokeFns fuel h v r st' Hrun.
  refine (SerializeJSONProperty_preserves call invokeFns
            (fun st st' => registry_ok (st_seen st) -> registry_ok (st_seen st'))
            _ _ _ _ fuel [] _ _ _ _ Hrun _).
  - intros ?. exact id.
  - intros ? ? ? H1 H2 H. apply H2, H1, H.
  - intros ? ? ? ?. apply replacer_registry_ok.
  - intros ? ? ? ? ? H. apply call_toJSON_seen in H. rewrite H. exact id.
  - cbn. split.
    + intros key id. rewrite lookup_empty. discriminate.
    + intros key1 key2 id. rewrite lookup_empty. discriminate.
Qed.

Lemma registry_ids_are_distinct_witness :
  registry_ok
    (st_seen (State [OArray [VRef 1; VRef 2; VRef 1]; OObject []; OObject []]
                    (<[Some 2 := 2]> (<[Some 1 := 1]> (<[Some 0 := 0]> ∅))))).
Proof.
  apply (registry_ids_are_distinct no_calls false 3
           [OArray [VRef 1; VRef 2; VRef 1]; OObject []; OObject []] (VRef 0)
           (Some (text "[{},{},'[[ cyclic ref *1 ]]']"))
           (State [OArray [VRef 1; VRef 2; VRef 1]; OObject []; OObject []]
                  (<[Some 2 := 2]> (<[Some 1 := 1]> (<[Some 0 := 0]> ∅))))).
  vm_compute. reflexivity.
Defined.

(** ** Graphs without [toJSON] methods *)

(** Objects that are neither functions nor carriers of a [toJSON] method
    can be added to a heap without giving any object a method. *)
Lemma method_free_app (h news : heap) :
  method_free h -> Forall built_by_replacer news -> method_free (h ++ news).
Proof.
  intros Hfree Hnews l. unfold toJSON_method.
  destruct ((h ++ news) !! l) as [[fs| | | |]|] eqn:Hl; try reflexivity.
  destruct (assoc "toJSON" fs) as [| | | | |f] eqn:Ha; try reflexivity.
  destruct ((h ++ news) !! f) as [[| | | |N body]|] eqn:Hf; try reflexivity.
  exfalso. rewrite Forall_forall in Hnews.
  apply lookup_app_Some in Hf as [Hf|[_ Hf]].
  2:{ apply list_elem_of_lookup_2, Hnews in Hf. exact Hf. }
  apply lookup_app_Some in Hl as [Hl|[_ Hl]].
  - specialize (Hfree l). unfold toJSON_method in Hfree.
    rewrite Hl, Ha, Hf in Hfree. discriminate.
  - apply list_elem_of_lookup_2, Hnews in Hl. cbn in Hl. exact (Hl f Ha).
Qed.

(** Without invocation, the replacer adds nothing but the arrays and the
    wrapper of a Map or a Set. *)
Lemma replacer_default_method_free call st v v' st' :
  replacer call false st v = Done (v', st') ->
  method_free (st_heap st) -> method_free (st_heap st').
Proof.
  destruct st as [h seen]. unfold replacer, object_branch, alloc; cbn [st_heap st_seen].
  destruct v as [| | | | |l]; try (intros [= <- <-]; exact id).
  - destruct (seen !! None); intros [= <- <-]; exact id.
  - destruct (h !! l) as [[fs|es|entries|es|N body]|]; try discriminate.
    + destruct (seen !! Some l); intros [= <- <-]; exact id.
    + destruct (seen !! Some l); intros [= <- <-]; exact id.
    + destruct (seen !! Some l); [intros [= <- <-]; exact id|].
      rewrite alloc_entries_spec. intros [= <- <-] Hfree. cbn [st_heap].
      rewrite <- !(assoc_L app). apply method_free_app; [exact Hfree|].
      rewrite !Forall_app. split; [apply pair_arrays_built|].
      split; apply Forall_singleton; [exact I | intros f; discriminate].
    + destruct (seen !! Some l); [intros [= <- <-]; exact id|].
      intros [= <- <-] Hfree. cbn [st_heap].
      rewrite <- !(assoc_L app). apply method_free_app; [exact Hfree|].
      rewrite !Forall_app. split; apply Forall_singleton; [exact I | intros f; discriminate].
    + rewrite andb_false_r. intros [= <- <-]. exact id.
Qed.

Lemma replacer_default_flag call1 call2 st v :
  replacer call1 false st v = replacer call2 false st v.
Proof.
  unfold replacer. destruct v; try reflexivity.
  destruct (st_heap st !! l) as [[| | | |N body]|]; try reflexivity.
  rewrite andb_false_r. reflexivity.
Qed.

Lemma replacer_flag_irrelevant call st v :
  no_nullary_function (st_heap st) ->
  replacer call true st v = replacer call false st v.
Proof.
  intros Hno. unfold replacer. destruct v as [| | | | |l]; try reflexivity.
  destruct (st_heap st !! l) as [[| | | |N body]|] eqn:E; try reflexivity.
  destruct N as [|N]; [|reflexivity].
  exfalso. exact (Forall_lookup_1 _ _ _ _ Hno E body eq_refl).
Qed.

Lemma replacer_no_nullary_function call st v v' st' :
  replacer call false st v = Done (v', st') ->
  no_nullary_function (st_heap st) -> no_nullary_function (st_heap st').
Proof.
  destruct st as [h seen]. unfold replacer, object_branch, alloc; cbn [st_heap st_seen].
  destruct v as [| | | | |l]; try (intros [= <- <-]; exact id).
  - destruct (seen !! None); intros [= <- <-]; exact id.
  - destruct (h !! l) as [[fs|es|entries|es|N body]|]; try discriminate.
    + destruct (seen !! Some l); intros [= <- <-]; exact id.
    + destruct (seen !! Some l); intros [= <- <-]; exact id.
    + destruct (seen !! Some l); [intros [= <- <-]; exact id|].
      rewrite alloc_entries_spec. intros [= <- <-] Hno. cbn [st_heap].
      unfold no_nullary_function. rewrite !Forall_app. repeat split; try assumption.
      * unfold pair_arrays. apply Forall_fmap, Forall_forall. intros kv _ body. discriminate.
      * apply Forall_singleton. discriminate.
      * apply Forall_singleton. discriminate.
    + destruct (seen !! Some l); [intros [= <- <-]; exact id|].
      intros [= <- <-] Hno. cbn [st_heap].
      unfold no_nullary_function. rewrite !Forall_app. repeat split; try assumption.
      * apply Forall_singleton. discriminate.
      * apply Forall_singleton. discriminate.
    + rewrite andb_false_r. intros [= <- <-]. exact id.
Qed.

(** Two traversals that call nothing agree: as long as the heap satisfies
    [Inv], which rules out [toJSON] methods, the two replacers return the
    same and keep [Inv]. *)
Section Agreement.

Variables call1 call2 : fid -> heap -> value -> list value -> call_result.
Variables flag1 flag2 : bool.
Variable Inv : heap -> Prop.
Hypothesis Inv_method_free : forall h, Inv h -> method_free h.
Hypothesis Inv_replacer_eq :
  forall st v, Inv (st_heap st) -> replacer call1 flag1 st v = replacer call2 flag2 st v.
Hypothesis Inv_replacer_keeps :
  forall st v v' st',
    replacer call2 flag2 st v = Done (v', st') -> Inv (st_heap st) -> Inv (st_heap st').

Lemma call_toJSON_keeps st key v v' st' :
  call_toJSON call2 st key v = Done (v', st') -> Inv (st_heap st) -> Inv (st_heap st').
Proof.
  intros H HI. destruct v as [| | | | |l];
    try (cbn in H; injection H as <- <-; exact HI).
  rewrite call_toJSON_none in H by (apply Inv_method_free, HI).
  injection H as <- <-. exact HI.
Qed.

Lemma SerializeJSONProperty_keeps fuel stack st v r st' :
  SerializeJSONProperty call2 flag2 fuel stack st v = Done (r, st') ->
  Inv (st_heap st) -> Inv (st_heap st').
Proof.
  apply (SerializeJSONProperty_preserves call2 flag2
           (fun st st' => Inv (st_heap st) -> Inv (st_heap st'))).
  - intros ?. exact id.
  - intros ? ? ? H1 H2 H. apply H2, H1, H.
  - apply Inv_replacer_keeps.
  - apply call_toJSON_keeps.
Qed.

Lemma call_toJSON_agree st key (v : value) :
  Inv (st_heap st) ->
  call_toJSON call1 st key v = Done (v, st) /\ call_toJSON call2 st key v = Done (v, st).
Proof.
  intros HI. destruct v as [| | | | |l]; try (split; reflexivity).
  split; apply call_toJSON_none, Inv_method_free, HI.
Qed.

Lemma serialize_properties_agree rec1 rec2 l K :
  (forall st v, Inv (st_heap st) -> rec1 st v = rec2 st v) ->
  (forall st v r st', rec2 st v = Done (r, st') -> Inv (st_heap st) -> Inv (st_heap st')) ->
  forall st, Inv (st_heap st) ->
    serialize_properties call1 rec1 l K st = serialize_properties call2 rec2 l K st.
Proof.
  intros Heq Hkeep. induction K as [|P K IH]; intros st HI; [reflexivity|].
  cbn [serialize_properties].
  destruct (call_toJSON_agree st P (GetProp (st_heap st) l P) HI) as [-> ->].
  cbn [mbind outcome_bind]. rewrite Heq by exact HI.
  destruct (rec2 st (GetProp (st_heap st) l P)) as [[strP st1]| |] eqn:E; try reflexivity.
  cbn [mbind outcome_bind]. rewrite IH by (eapply Hkeep; eassumption). reflexivity.
Qed.

Lemma serialize_elements_agree rec1 rec2 l indices :
  (forall st v, Inv (st_heap st) -> rec1 st v = rec2 st v) ->
  (forall st v r st', rec2 st v = Done (r, st') -> Inv (st_heap st) -> Inv (st_heap st')) ->
  forall st, Inv (st_heap st) ->
    serialize_elements call1 rec1 l indices st = serialize_elements call2 rec2 l indices st.
Proof.
  intros Heq Hkeep. induction indices as [|i indices IH]; intros st HI; [reflexivity|].
  cbn [serialize_elements].
  destruct (call_toJSON_agree st (nat_to_string i) (GetIndex (st_heap st) l i) HI) as [-> ->].
  cbn [mbind outcome_bind]. rewrite Heq by exact HI.
  destruct (rec2 st (GetIndex (st_heap st) l i)) as [[strP st1]| |] eqn:E; try reflexivity.
  cbn [mbind outcome_bind]. rewrite IH by (eapply Hkeep; eassumption). reflexivity.
Qed.

Lemma SerializeJSONProperty_agree fuel :
  forall stack st v,
    Inv (st_heap st) ->
    SerializeJSONProperty call1 flag1 fuel stack st v
    = SerializeJSONProperty call2 flag2 fuel stack st v.
Proof.
  induction fuel as [|fuel IH]; intros stack st v HI; [reflexivity|].
  rewrite !SerializeJSONProperty_S, Inv_replacer_eq by exact HI.
  destruct (replacer call2 flag2 st v) as [[v1 st1]| |] eqn:E; try reflexivity.
  apply Inv_replacer_keeps in E; [|exact HI].
  cbn [mbind outcome_bind].
  destruct v1 as [| |[]| | |l]; try reflexivity.
  destruct (st_heap st1 !! l) as [[fs|es|entries|es|N body]|]; try reflexivity;
    destruct (bool_decide (l ∈ stack)); try reflexivity.
  - rewrite (serialize_properties_agree _ _ l _ (IH (l :: stack))
               (SerializeJSONProperty_keeps fuel (l :: stack)) st1 E).
    reflexivity.
  - rewrite (serialize_elements_agree _ _ l _ (IH (l :: stack))
               (SerializeJSONProperty_keeps fuel (l :: stack)) st1 E).
    reflexivity.
Qed.

Lemma toJSON_agree fuel (h : heap) (v : value) :
  Inv h -> toJSON call1 fuel h v flag1 = toJSON call2 fuel h v flag2.
Proof.
  intros HI. unfold toJSON, toJSON_fuel.
  destruct (call_toJSON_agree (State h ∅) "" v HI) as [-> ->].
  cbn [mbind outcome_bind]. rewrite SerializeJSONProperty_agree by exact HI. reflexivity.
Qed.

End Agreement.

(** ** The default flag *)

Lemma toJSON_default_flag (call1 call2 : fid -> heap -> value -> list value -> call_result)
    fuel (h : heap) (v : value) :
  method_free h -> toJSON call1 fuel h v false = toJSON call2 fuel h v false.
Proof.
  apply (toJSON_agree call1 call2 false false method_free).
  - intros h' H. exact H.
  - intros st v' _. apply replacer_default_flag.
  - intros st v0 v' st'. apply replacer_default_method_free.
Qed.

(** With the default flag, [toJSON(value)] on an object graph without
    [toJSON] methods calls no function at all: what the functions of the
    graph would do has no influence on the outcome, and a function that
    throws or loops does no harm. *)
Theorem toJSON_default_flag_calls_nothing :
  forall call1 call2 fuel (h : heap) (v : value),
    method_free h ->
    toJSON call1 fuel h v false = toJSON call2 fuel h v false.
Proof. exact toJSON_default_flag. Qed.

Lemma toJSON_default_flag_calls_nothing_witness :
  toJSON no_calls 5 [OArray [VRef 1; VRef 2]; OFunction 0 0; OMap [(VString "toJSON", VRef 1)]]
    (VRef 0) false
  = toJSON (fun _ h _ _ => Returns (VRef 0) h) 5
      [OArray [VRef 1; VRef 2]; OFunction 0 0; OMap [(VString "toJSON", VRef 1)]]
      (VRef 0) false.
Proof.
  apply toJSON_default_flag_calls_nothing.
  intros l. destruct l as [|[|[|l]]]; reflexivity.
Defined.

(** ** When the flag matters *)

(** The flag matters only for functions without parameters: on an object
    graph that holds none, and no [toJSON] method that could return one,
    [toJSON(value, true)] and [toJSON(value)] give the same outcome, and
    functions that declare parameters are written as placeholders either
    way. *)
Theorem toJSON_flag_needs_nullary_function :
  forall call fuel (h : heap) (v : value),
    no_nullary_function h ->
    method_free h ->
    toJSON call fuel h v true = toJSON call fuel h v false.
Proof.
  intros call fuel h v Hno Hfree.
  apply (toJSON_agree call call true false
           (fun h => method_free h /\ no_nullary_function h)).
  - intros h' H. apply H.
  - intros st v' H. apply replacer_flag_irrelevant, H.
  - intros st v0 v' st' E [H1 H2]. split.
    + eapply replacer_default_method_free; eassumption.
    + eapply replacer_no_nullary_function; eassumption.
  - split; assumption.
Qed.

Lemma toJSON_flag_needs_nullary_function_witness :
  toJSON no_calls 4 [OArray [VRef 1; VRef 2]; OFunction 2 0; OSet [VRef 1]] (VRef 0) true
  = toJSON no_calls 4 [OArray [VRef 1; VRef 2]; OFunction 2 0; OSet [VRef 1]] (VRef 0) false.
Proof.
  apply toJSON_flag_needs_nullary_function.
  - repeat constructor; discriminate.
  - intros l. destruct l as [|[|[|l]]]; reflexivity.
Defined.

(** ** [mutate] and [setProperty] *)

Lemma revapp_nil (d d' : Decimal.uint) :
  Decimal.revapp d d' = Decimal.Nil -> d = Decimal.Nil /\ d' = Decimal.Nil.
Proof.
  revert d'. induction d; intros d' H; cbn in H;
    try (apply IHd in H as [_ H]; discriminate).
  split; [reflexivity | exact H].
Qed.

Lemma to_little_uint_nonnil (n : nat) (acc : Decimal.uint) :
  acc <> Decimal.Nil -> Nat.to_little_uint n acc <> Decimal.Nil.
Proof.
  revert acc. induction n as [|n IH]; intros acc Hacc; [exact Hacc|].
  cbn. apply IH. destruct acc; discriminate.
Qed.

Lemma to_uint_nonnil (n : nat) : Nat.to_uint n <> Decimal.Nil.
Proof.
  unfold Nat.to_uint, Decimal.rev. intros H. apply revapp_nil in H as [H _].
  revert H. apply to_little_uint_nonnil. discriminate.
Qed.

Lemma nat_to_string_inj (a b : nat) : nat_to_string a = nat_to_string b -> a = b.
Proof.
  unfold nat_to_string. intros H. apply DecimalNat.Unsigned.to_uint_inj.
  pose proof (NilZero.usu _ (to_uint_nonnil a)) as Ha.
  pose proof (NilZero.usu _ (to_uint_nonnil b)) as Hb.
  rewrite H in Ha. congruence.
Qed.

Lemma wat_inj (a b : nat) : wat a = wat b -> a = b.
Proof. unfold wat. intros H. apply nat_to_string_inj. injection H. auto. Qed.

Lemma wat_not_length (n : nat) : String.eqb (wat n) "length" = false.
Proof. reflexivity. Qed.

Lemma hasOwn_wat (st : store) (l : loc) (n : nat) :
  hasOwn st l (wat n) = bool_decide (wat n ∈ (own_enumerable st l).*1).
Proof.
  unfold hasOwn. destruct (objs st !! l) as [[| | | |]|]; try reflexivity.
  rewrite wat_not_length. apply orb_false_r.
Qed.

Lemma least_false (p : nat -> bool) (N : nat) :
  p N = false -> exists n, n <= N /\ p n = false /\ forall i, i < n -> p i = true.
Proof.
  assert (Hupto : forall M,
            (forall i, i < M -> p i = true)
            \/ exists n, n < M /\ p n = false /\ forall i, i < n -> p i = true).
  { induction M as [|M [Hall|(n & Hn & Hpn & Hmin)]].
    - left. intros i Hi. lia.
    - destruct (p M) eqn:E.
      + left. intros i Hi. destruct (decide (i = M)) as [->|]; [exact E | apply Hall; lia].
      + right. exists M. split; [lia|]. split; [exact E | exact Hall].
    - right. exists n. split; [lia|]. split; assumption. }
  intros HN. destruct (Hupto (S N)) as [Hall|(n & Hn & Hpn & Hmin)].
  - rewrite Hall in HN by lia. discriminate.
  - exists n. split; [lia|]. split; assumption.
Qed.

(** Among ["wat0"], ..., ["wat<n>"] with [n] the number of properties, one is
    free. *)
Lemma wat_key_free (keys : list string) :
  exists i, i <= List.length keys /\ wat i ∉ keys.
Proof.
  destruct (decide (Forall (fun i => wat i ∈ keys) (seq 0 (S (List.length keys)))))
    as [Hall|Hnot].
  - exfalso.
    assert (Hsub : wat <$> seq 0 (S (List.length keys)) ⊆+ keys).
    { apply NoDup_submseteq.
      - apply (NoDup_fmap_2_strong wat); [|apply NoDup_seq].
        intros a b _ _. apply wat_inj.
      - intros x [i [-> Hi]]%list_elem_of_fmap. rewrite Forall_forall in Hall. auto. }
    apply submseteq_length in Hsub. rewrite length_fmap, length_seq in Hsub. lia.
  - apply not_Forall_Exists in Hnot; [|intros; apply _].
    apply Exists_exists in Hnot as (i & Hi & Hfree). apply elem_of_seq in Hi.
    exists i. split; [lia | exact Hfree].
Qed.

Lemma first_free_wat (st : store) (l : loc) :
  exists n,
    n <= List.length (own_enumerable st l)
    /\ hasOwn st l (wat n) = false
    /\ forall i, i < n -> hasOwn st l (wat i) = true.
Proof.
  destruct (wat_key_free (own_enumerable st l).*1) as (i & Hi & Hfree).
  rewrite length_fmap in Hi.
  destruct (least_false (fun j => hasOwn st l (wat j)) i) as (n & Hn & Hpn & Hmin).
  - rewrite hasOwn_wat. apply bool_decide_eq_false_2, Hfree.
  - exists n. split; [lia|]. split; assumption.
Qed.

Lemma setProperty_loop_spec fuel : forall st l property count n,
  count <= n ->
  n - count < fuel ->
  hasOwn st l (wat n) = false ->
  (forall i, count <= i < n -> hasOwn st l (wat i) = true) ->
  setProperty_loop fuel st l property count = add_property st l (wat n) property.
Proof.
  induction fuel as [|fuel IH]; intros st l property count n Hle Hfuel Hfree Hbelow; [lia|].
  cbn [setProperty_loop]. destruct (decide (count = n)) as [->|Hne].
  - rewrite Hfree. reflexivity.
  - rewrite Hbelow by lia. cbn [negb].
    apply IH; [lia | lia | exact Hfree | intros i Hi; apply Hbelow; lia].
Qed.

Lemma mutate_loop_is_setProperty_loop fuel st l count :
  mutate_loop fuel st l count = setProperty_loop fuel st l (VString "joe") count.
Proof.
  revert count. induction fuel as [|fuel IH]; intros count; [reflexivity|].
  cbn [mutate_loop setProperty_loop]. rewrite IH. reflexivity.
Qed.

(** [mutate(arg)] does what [setProperty(arg, "joe")] does, and
    [mutateAndReturn] is [setProperty] with that value: the two loops of the
    source pick the same key in every store. *)
Theorem mutateAndReturn_is_setProperty_joe :
  forall fuel st arg,
    mutateAndReturn fuel st arg = setProperty fuel st arg (VString "joe").
Proof.
  intros fuel st arg. unfold mutateAndReturn, mutate, setProperty.
  destruct (negb (String.eqb (typeof (objs st) arg) "object")); [reflexivity|].
  destruct arg; try reflexivity.
  rewrite mutate_loop_is_setProperty_loop. reflexivity.
Qed.

Lemma own_enumerable_add_property (st st' : store) (l : loc) (key : string) (v : value) :
  add_property st l key v = Normal st' ->
  own_enumerable st' l = own_enumerable st l ++ [(key, v)]
  /\ frozen st' = frozen st
  /\ List.length (objs st') = List.length (objs st)
  /\ forall l', l' <> l ->
       objs st' !! l' = objs st !! l' /\ named st' !! l' = named st !! l'.
Proof.
  unfold add_property. destruct (bool_decide (l ∈ frozen st)); [discriminate|].
  destruct (objs st !! l) as [o|] eqn:E; [|discriminate].
  assert (Hlt : l < List.length (objs st)) by (eapply lookup_lt_Some, E).
  destruct o as [fs|es|entries|es|N body]; intros [= <-];
    unfold own_enumerable, named_props; cbn [objs named frozen];
    rewrite ?E, ?lookup_insert_eq, ?list_lookup_insert_eq by exact Hlt; cbn [default];
    (split; [|split; [reflexivity|split; [|intros l' Hne; split]]]);
    try reflexivity;
    try (apply lookup_insert_ne; congruence).
  - apply length_insert.
  - apply list_lookup_insert_ne. congruence.
  - unfold id. apply (assoc_L app).
Qed.

Lemma mutate_spec :
  forall fuel st (l : loc) o,
    objs st !! l = Some o ->
    (forall N body, o <> OFunction N body) ->
    l ∉ frozen st ->
    List.length (own_enumerable st l) < fuel ->
    exists n st',
      mutate fuel st (VRef l) = Normal st'
      /\ n <= List.length (own_enumerable st l)
      /\ hasOwn st l (wat n) = false
      /\ (forall i, i < n -> hasOwn st l (wat i) = true)
      /\ own_enumerable st' l = own_enumerable st l ++ [(wat n, VString "joe")].
Proof.
  intros fuel st l o Ho Hfun Hfrozen Hfuel.
  destruct (first_free_wat st l) as (n & Hn & Hfree & Hmin).
  assert (Hadd : exists st', add_property st l (wat n) (VString "joe") = Normal st').
  { unfold add_property. rewrite bool_decide_eq_false_2 by exact Hfrozen. rewrite Ho.
    destruct o; eauto. }
  destruct Hadd as [st' Hadd]. exists n, st'.
  split; [|split; [exact Hn|split; [exact Hfree|split; [exact Hmin|]]]].
  - unfold mutate, typeof. rewrite Ho.
    replace (negb (String.eqb match o with OFunction _ _ => "function" | _ => "object" end
                              "object")) with false
      by (destruct o; try reflexivity; exfalso; eapply Hfun; reflexivity).
    rewrite mutate_loop_is_setProperty_loop.
    rewrite (setProperty_loop_spec fuel st l _ 0 n); [exact Hadd | lia | lia | exact Hfree |].
    intros i Hi. apply Hmin. lia.
  - apply (own_enumerable_add_property _ _ _ _ _ Hadd).
Qed.

(** On an object that is neither a function nor frozen, [mutate] finishes
    within as many iterations as the object has properties plus one, and adds
    exactly one property, last in property order: ["wat<n>"] with value
    ["joe"], [n] being the least number whose key the object does not own. *)
Theorem mutate_adds_first_free_key :
  forall fuel st (l : loc) o,
    objs st !! l = Some o ->
    (forall N body, o <> OFunction N body) ->
    l ∉ frozen st ->
    List.length (own_enumerable st l) < fuel ->
    exists n st',
      mutate fuel st (VRef l) = Normal st'
      /\ n <= List.length (own_enumerable st l)
      /\ hasOwn st l (wat n) = false
      /\ (forall i, i < n -> hasOwn st l (wat i) = true)
      /\ own_enumerable st' l = own_enumerable st l ++ [(wat n, VString "joe")].
Proof. exact mutate_spec. Qed.

Lemma mutate_adds_first_free_key_witness :
  exists n st',
    mutate 3 (Store [OObject [("wat0", VNumber 1); ("a", VNull)]] ∅ ∅) (VRef 0) = Normal st'
    /\ n <= List.length
              (own_enumerable (Store [OObject [("wat0", VNumber 1); ("a", VNull)]] ∅ ∅) 0)
    /\ hasOwn (Store [OObject [("wat0", VNumber 1); ("a", VNull)]] ∅ ∅) 0 (wat n) = false
    /\ (forall i, i < n ->
          hasOwn (Store [OObject [("wat0", VNumber 1); ("a", VNull)]] ∅ ∅) 0 (wat i) = true)
    /\ own_enumerable st' 0
       = own_enumerable (Store [OObject [("wat0", VNumber 1); ("a", VNull)]] ∅ ∅) 0
           ++ [(wat n, VString "joe")].
Proof.
  apply (mutate_adds_first_free_key 3 (Store [OObject [("wat0", VNumber 1); ("a", VNull)]] ∅ ∅)
           0 (OObject [("wat0", VNumber 1); ("a", VNull)])).
  - reflexivity.
  - discriminate.
  - apply not_elem_of_empty.
  - cbn. lia.
Defined.

Lemma setProperty_loop_result fuel : forall st l property count st',
  setProperty_loop fuel st l property count = Normal st' ->
  exists n, hasOwn st l (wat n) = false
            /\ add_property st l (wat n) property = Normal st'.
Proof.
  induction fuel as [|fuel IH]; intros st l property count st'; [discriminate|].
  cbn [setProperty_loop]. destruct (hasOwn st l (wat count)) eqn:E; cbn [negb].
  - apply IH.
  - intros H. exists count. split; assumption.
Qed.

(** [setProperty(arg, property)] returns [arg] itself, and a call that
    returns has touched no object but [arg]: every other object keeps its
    properties and elements, no object is added and none is frozen or
    unfrozen. *)
Theorem setProperty_touches_only_its_argument :
  forall fuel st arg property r st',
    setProperty fuel st arg property = Normal (r, st') ->
    r = arg
    /\ frozen st' = frozen st
    /\ List.length (objs st') = List.length (objs st)
    /\ forall l', arg <> VRef l' ->
         objs st' !! l' = objs st !! l' /\ named st' !! l' = named st !! l'.
Proof.
  intros fuel st arg property r st'. unfold setProperty.
  destruct (negb (String.eqb (typeof (objs st) arg) "object")).
  { intros [= <- <-]. repeat split; reflexivity. }
  destruct arg as [| | | | |l]; try discriminate.
  destruct (setProperty_loop fuel st l property 0) as [st1| | |] eqn:E; try discriminate.
  cbn [mbind completion_bind]. intros [= <- <-].
  apply setProperty_loop_result in E as (n & _ & Hadd).
  destruct (own_enumerable_add_property _ _ _ _ _ Hadd) as (_ & Hfrozen & Hlen & Hother).
  split; [reflexivity|]. split; [exact Hfrozen|]. split; [exact Hlen|].
  intros l' Hne. apply Hother. congruence.
Qed.

Lemma setProperty_touches_only_its_argument_witness :
  VRef 1 = VRef 1
  /\ frozen (Store [OObject []; OArray [VNumber 1]] {[1 := [(wat 0, VRef 0)]]} ∅)
     = frozen (Store [OObject []; OArray [VNumber 1]] ∅ ∅)
  /\ List.length (objs (Store [OObject []; OArray [VNumber 1]] {[1 := [(wat 0, VRef 0)]]} ∅))
     = List.length (objs (Store [OObject []; OArray [VNumber 1]] ∅ ∅))
  /\ forall l', VRef 1 <> VRef l' ->
       objs (Store [OObject []; OArray [VNumber 1]] {[1 := [(wat 0, VRef 0)]]} ∅) !! l'
       = objs (Store [OObject []; OArray [VNumber 1]] ∅ ∅) !! l'
       /\ named (Store [OObject []; OArray [VNumber 1]] {[1 := [(wat 0, VRef 0)]]} ∅) !! l'
          = named (Store [OObject []; OArray [VNumber 1]] ∅ ∅) !! l'.
Proof.
  apply (setProperty_touches_only_its_argument 1
           (Store [OObject []; OArray [VNumber 1]] ∅ ∅) (VRef 1) (VRef 0)).
  vm_compute. reflexivity.
Defined.

Lemma assoc_app_absent (k : string) (fs : list (string * value)) (v : value) :
  k ∉ fs.*1 -> assoc k (fs ++ [(k, v)]) = v.
Proof.
  induction fs as [|[k' v'] fs IH]; cbn; intros Hk.
  - rewrite String.eqb_refl. reflexivity.
  - destruct (String.eqb_spec k k') as [->|_].
    + exfalso. apply Hk. left.
    + apply IH. intros Hin. apply Hk. right. exact Hin.
Qed.

Lemma assoc_app_present (k : string) (fs gs : list (string * value)) :
  k ∈ fs.*1 -> assoc k (fs ++ gs) = assoc k fs.
Proof.
  induction fs as [|[k' v'] fs IH]; cbn; intros Hk; [inversion Hk|].
  destruct (String.eqb_spec k k') as [->|Hne]; [reflexivity|].
  apply IH. apply elem_of_cons in Hk as [?|?]; [contradiction | assumption].
Qed.

(** What [setProperty(arg, property)] writes reads back: on an object that
    is neither a function nor frozen the call returns [arg], the new key
    ["wat<n>"] now holds [property], and every property the object had reads
    as before. *)
Theorem setProperty_then_read :
  forall fuel st (l : loc) o property,
    objs st !! l = Some o ->
    (forall N body, o <> OFunction N body) ->
    l ∉ frozen st ->
    List.length (own_enumerable st l) < fuel ->
    exists n st',
      setProperty fuel st (VRef l) property = Normal (VRef l, st')
      /\ (wat n ∉ (own_enumerable st l).*1)
      /\ assoc (wat n) (own_enumerable st' l) = property
      /\ forall key, key ∈ (own_enumerable st l).*1 ->
           assoc key (own_enumerable st' l) = assoc key (own_enumerable st l).
Proof.
  intros fuel st l o property Ho Hfun Hfrozen Hfuel.
  destruct (first_free_wat st l) as (n & Hn & Hfree & Hmin).
  assert (Hadd : exists st', add_property st l (wat n) property = Normal st').
  { unfold add_property. rewrite bool_decide_eq_false_2 by exact Hfrozen. rewrite Ho.
    destruct o; eauto. }
  destruct Hadd as [st' Hadd]. exists n, st'.
  rewrite hasOwn_wat in Hfree. apply bool_decide_eq_false_1 in Hfree.
  destruct (own_enumerable_add_property _ _ _ _ _ Hadd) as (Hown & _).
  split; [|split; [exact Hfree|split]].
  - unfold setProperty, typeof. rewrite Ho.
    replace (negb (String.eqb match o with OFunction _ _ => "function" | _ => "object" end
                              "object")) with false
      by (destruct o; try reflexivity; exfalso; eapply Hfun; reflexivity).
    rewrite (setProperty_loop_spec fuel st l _ 0 n); [rewrite Hadd; reflexivity | lia | lia | |].
    + rewrite hasOwn_wat. apply bool_decide_eq_false_2, Hfree.
    + intros i Hi. apply Hmin. lia.
  - rewrite Hown. apply assoc_app_absent, Hfree.
  - intros key Hkey. rewrite Hown. apply assoc_app_present, Hkey.
Qed.

Lemma setProperty_then_read_witness :
  exists n st',
    setProperty 2 (Store [OArray [VNumber 4]] ∅ ∅) (VRef 0) (VBool true) = Normal (VRef 0, st')
    /\ (wat n ∉ (own_enumerable (Store [OArray [VNumber 4]] ∅ ∅) 0).*1)
    /\ assoc (wat n) (own_enumerable st' 0) = VBool true
    /\ forall key, key ∈ (own_enumerable (Store [OArray [VNumber 4]] ∅ ∅) 0).*1 ->
         assoc key (own_enumerable st' 0)
         = assoc key (own_enumerable (Store [OArray [VNumber 4]] ∅ ∅) 0).
Proof.
  apply (setProperty_then_read 2 (Store [OArray [VNumber 4]] ∅ ∅) 0 (OArray [VNumber 4])).
  - reflexivity.
  - discriminate.
  - apply not_elem_of_empty.
  - vm_compute. lia.
Defined.

(** The TypeErrors of [mutate]: [mutate(null)] throws, because the guard
    lets [null] through to [Object.hasOwn]; and on a frozen object [mutate]
    finds its key and then throws at the assignment. *)
Theorem mutate_type_errors :
  forall fuel st (l : loc) o,
    objs st !! l = Some o ->
    (forall N body, o <> OFunction N body) ->
    l ∈ frozen st ->
    List.length (own_enumerable st l) < fuel ->
    mutate fuel st VNull = TypeError
    /\ mutate fuel st (VRef l) = TypeError.
Proof.
  intros fuel st l o Ho Hfun Hfrozen Hfuel. split; [reflexivity|].
  destruct (first_free_wat st l) as (n & Hn & Hfree & Hmin).
  unfold mutate, typeof. rewrite Ho.
  replace (negb (String.eqb match o with OFunction _ _ => "function" | _ => "object" end
                            "object")) with false
    by (destruct o; try reflexivity; exfalso; eapply Hfun; reflexivity).
  rewrite mutate_loop_is_setProperty_loop.
  rewrite (setProperty_loop_spec fuel st l _ 0 n); [| lia | lia | exact Hfree |].
  - unfold add_property. rewrite bool_decide_eq_true_2 by exact Hfrozen. reflexivity.
  - intros i Hi. apply Hmin. lia.
Qed.

Lemma mutate_type_errors_witness :
  mutate 1 (Store [OObject []] ∅ {[0]}) VNull = TypeError
  /\ mutate 1 (Store [OObject []] ∅ {[0]}) (VRef 0) = TypeError.
Proof.
  apply (mutate_type_errors 1 (Store [OObject []] ∅ {[0]}) 0 (OObject [])).
  - reflexivity.
  - discriminate.
  - cbn [frozen]. apply elem_of_singleton_2. reflexivity.
  - cbn. lia.
Defined.

#[local] Instance wat_injective : Inj (=) (=) wat.
Proof. intros a b. apply wat_inj. Qed.

Lemma wat_props_keys (k : nat) :
  ((fun i => (wat i, VString "joe")) <$> seq 0 k).*1 = wat <$> seq 0 k.
Proof. rewrite <- list_fmap_compose. reflexivity. Qed.

(** Calling [mutate] [k] times on an empty object fills it with the keys
    ["wat0"], ..., ["wat<k-1>"] in that order, each holding ["joe"]; a budget
    of [k] iterations per call is enough. *)
Theorem mutate_repeated_fills_wat_keys :
  forall k fuel st (l : loc),
    objs st !! l = Some (OObject []) ->
    l ∉ frozen st ->
    k <= fuel ->
    exists st',
      mutate_times k fuel st (VRef l) = Normal st'
      /\ objs st' !! l = Some (OObject ((fun i => (wat i, VString "joe")) <$> seq 0 k))
      /\ frozen st' = frozen st.
Proof.
  induction k as [|k IH]; intros fuel st l Ho Hfrozen Hfuel.
  - exists st. repeat split. exact Ho.
  - destruct (IH fuel st l Ho Hfrozen) as (st1 & Hrun & Ho1 & Hfr1); [lia|].
    cbn [mutate_times]. rewrite Hrun. cbn [mbind completion_bind].
    assert (Hown : own_enumerable st1 l = (fun i => (wat i, VString "joe")) <$> seq 0 k)
      by (unfold own_enumerable; rewrite Ho1; reflexivity).
    assert (Hhas : forall i, hasOwn st1 l (wat i) = bool_decide (i < k)).
    { intros i. rewrite hasOwn_wat, Hown, wat_props_keys. apply bool_decide_ext.
      rewrite (list_elem_of_fmap_inj wat), elem_of_seq. lia. }
    unfold mutate, typeof. rewrite Ho1. cbn [String.eqb Ascii.eqb Bool.eqb negb].
    rewrite mutate_loop_is_setProperty_loop.
    rewrite (setProperty_loop_spec fuel st1 l _ 0 k); [| lia | lia | |].
    + unfold add_property. rewrite bool_decide_eq_false_2 by (rewrite Hfr1; exact Hfrozen).
      rewrite Ho1. eexists. split; [reflexivity|]. cbn [objs frozen]. split; [|exact Hfr1].
      rewrite list_lookup_insert_eq by (eapply lookup_lt_Some, Ho1).
      rewrite seq_S, fmap_app. reflexivity.
    + rewrite Hhas. apply bool_decide_eq_false_2. lia.
    + intros i Hi. rewrite Hhas. apply bool_decide_eq_true_2. lia.
Qed.

Lemma mutate_repeated_fills_wat_keys_witness :
  exists st',
    mutate_times 3 3 (Store [OArray []; OObject []] ∅ ∅) (VRef 1) = Normal st'
    /\ objs st' !! 1 = Some (OObject ((fun i => (wat i, VString "joe")) <$> seq 0 3))
    /\ frozen st' = frozen (Store [OArray []; OObject []] ∅ ∅).
Proof.
  apply (mutate_repeated_fills_wat_keys 3 3 (Store [OArray []; OObject []] ∅ ∅) 1).
  - reflexivity.
  - apply not_elem_of_empty.
  - lia.
Defined.

(** ** [shallowCopy] *)

Lemma own_enumerable_ext (st st' : store) (l : loc) :
  objs st' !! l = objs st !! l -> named st' !! l = named st !! l ->
  own_enumerable st' l = own_enumerable st l.
Proof. intros Ho Hn. unfold own_enumerable, named_props. rewrite Ho, Hn. reflexivity. Qed.

Lemma mutate_frame fuel st arg st' :
  mutate fuel st arg = Normal st' ->
  forall l', arg <> VRef l' ->
    objs st' !! l' = objs st !! l' /\ named st' !! l' = named st !! l'.
Proof.
  unfold mutate. destruct (negb (String.eqb (typeof (objs st) arg) "object")).
  { intros [= <-] l' _. split; reflexivity. }
  destruct arg as [| | | | |l]; try discriminate.
  rewrite mutate_loop_is_setProperty_loop. intros E l' Hne.
  apply setProperty_loop_result in E as (n & _ & Hadd).
  apply (own_enumerable_add_property _ _ _ _ _ Hadd). congruence.
Qed.

(** [shallowCopy(obj)] gives a new plain object with the properties of
    [obj], and leaves [obj] alone: a later [mutate] of the copy adds its key
    to the copy only, while [obj] keeps exactly the properties it had. *)
Theorem shallowCopy_then_mutate_spares_the_original :
  forall fuel st (l : loc) o,
    store_wf st ->
    objs st !! l = Some o ->
    List.length (own_enumerable st l) < fuel ->
    let c := List.length (objs st) in
    (shallowCopy st (VRef l)).1 = VRef c
    /\ l <> c
    /\ own_enumerable (shallowCopy st (VRef l)).2 c = own_enumerable st l
    /\ exists n st2,
         mutate fuel (shallowCopy st (VRef l)).2 (VRef c) = Normal st2
         /\ own_enumerable st2 l = own_enumerable st l
         /\ own_enumerable st2 c = own_enumerable st l ++ [(wat n, VString "joe")].
Proof.
  intros fuel st l o [Hfrozen _] Ho Hfuel c.
  assert (Hlt : l < c) by (eapply lookup_lt_Some, Ho).
  unfold shallowCopy, alloc. cbn [fst snd assign_source]. fold c.
  set (st1 := Store (objs st ++ [OObject (own_enumerable st l)]) (named st) (frozen st)).
  assert (Hc : objs st1 !! c = Some (OObject (own_enumerable st l)))
    by (apply list_lookup_middle; reflexivity).
  assert (Hown1 : own_enumerable st1 c = own_enumerable st l)
    by (unfold own_enumerable at 1; rewrite Hc; reflexivity).
  assert (Hl1 : own_enumerable st1 l = own_enumerable st l).
  { apply own_enumerable_ext; [|reflexivity]. cbn [objs st1]. apply lookup_app_l. exact Hlt. }
  split; [reflexivity|]. split; [lia|]. split; [exact Hown1|].
  destruct (mutate_spec fuel st1 c _ Hc) as (n & st2 & Hrun & _ & _ & _ & Hown2).
  - discriminate.
  - cbn [frozen st1]. intros Hin. apply Hfrozen in Hin. fold c in Hin. lia.
  - rewrite Hown1. exact Hfuel.
  - exists n, st2. split; [exact Hrun|]. split.
    + rewrite <- Hl1. destruct (mutate_frame _ _ _ _ Hrun l) as [H1 H2]; [intros [=]; lia|].
      apply own_enumerable_ext; assumption.
    + rewrite Hown2, Hown1. reflexivity.
Qed.

Lemma shallowCopy_then_mutate_spares_the_original_witness :
  let st := Store [OObject [("wat0", VNumber 1)]] ∅ ∅ in
  let c := List.length (objs st) in
  (shallowCopy st (VRef 0)).1 = VRef c
  /\ 0 <> c
  /\ own_enumerable (shallowCopy st (VRef 0)).2 c = own_enumerable st 0
  /\ exists n st2,
       mutate 2 (shallowCopy st (VRef 0)).2 (VRef c) = Normal st2
       /\ own_enumerable st2 0 = own_enumerable st 0
       /\ own_enumerable st2 c = own_enumerable st 0 ++ [(wat n, VString "joe")].
Proof.
  intros st.
  apply (shallowCopy_then_mutate_spares_the_original 2 st 0 (OObject [("wat0", VNumber 1)])).
  - split.
    + intros l Hl. exfalso. revert Hl. apply not_elem_of_empty.
    + intros l [x Hx]. cbn in Hx. rewrite lookup_empty in Hx. discriminate.
  - reflexivity.
  - cbn. lia.
Defined.

(** A plain object whose properties are all scalars and its [shallowCopy]
    have the same JSON text, whatever the flag. *)
Theorem shallowCopy_has_the_same_text :
  forall call invokeFns fuel st (l : loc) (fs : list (string * value)),
    objs st !! l = Some (OObject fs) ->
    NoDup fs.*1 ->
    Forall (fun kv => scalar kv.2) fs ->
    result_of (toJSON call (2 + fuel) (objs (shallowCopy st (VRef l)).2)
                 (shallowCopy st (VRef l)).1 invokeFns)
    = result_of (toJSON call (2 + fuel) (objs st) (VRef l) invokeFns)
    /\ result_of (toJSON call (2 + fuel) (objs st) (VRef l) invokeFns)
       = Done (Some ("{" +:+ join_comma (omap self_member fs) +:+ "}")).
Proof.
  intros call invokeFns fuel st l fs Ho Hnd Hfs.
  rewrite (scalar_fields_text call invokeFns fuel (objs st) l fs Ho Hnd Hfs).
  split; [|reflexivity].
  unfold shallowCopy, alloc. cbn [fst snd objs assign_source].
  unfold own_enumerable. rewrite Ho.
  rewrite (scalar_fields_text call invokeFns fuel _ (List.length (objs st)) fs);
    [reflexivity | apply list_lookup_middle; reflexivity | exact Hnd | exact Hfs].
Qed.

Lemma shallowCopy_has_the_same_text_witness :
  let st := Store [OObject [("a", VNumber 0); ("b", VString "value1"); ("c", VBool true)]] ∅ ∅ in
  result_of (toJSON no_calls 2 (objs (shallowCopy st (VRef 0)).2)
               (shallowCopy st (VRef 0)).1 false)
  = result_of (toJSON no_calls 2 (objs st) (VRef 0) false)
  /\ result_of (toJSON no_calls 2 (objs st) (VRef 0) false)
     = Done (Some (text "{'a':0,'b':'value1','c':true}")).
Proof.
  intros st.
  apply (shallowCopy_has_the_same_text no_calls false 0 st 0
           [("a", VNumber 0); ("b", VString "value1"); ("c", VBool true)]).
  - reflexivity.
  - refine (bool_decide_unpack _ _). vm_compute. exact I.
  - repeat (apply Forall_cons; split; [exact I|]). apply Forall_nil_2.
Defined.

Lemma assoc_index_props_from (es : list value) : forall k i,
  i < List.length es ->
  assoc (nat_to_string (k + i)) (imap (fun j e => (nat_to_string (k + j), e)) es)
  = nth i es VUndefined.
Proof.
  induction es as [|e es IH]; intros k i Hi; cbn in Hi; [lia|].
  cbn [imap assoc]. destruct i as [|i].
  - rewrite String.eqb_refl. reflexivity.
  - destruct (String.eqb_spec (nat_to_string (k + S i)) (nat_to_string (k + 0))) as [E|_].
    { apply nat_to_string_inj in E. lia. }
    cbn [nth]. rewrite <- (IH (S k) i) by lia.
    replace (k + S i) with (S k + i) by lia. f_equal.
    apply imap_ext. intros j x _. cbn. do 2 f_equal. lia.
Qed.

(** The shallow copy of an array is a plain object keyed by the decimal
    indices: the copy of [[e0, ..., en]] (an array that was given no named
    property) has exactly the properties ["0"], ..., ["n"], and reading key
    [i] of the copy gives element [i] of the array. *)
Theorem shallowCopy_of_an_array :
  forall st (l : loc) (es : list value),
    objs st !! l = Some (OArray es) ->
    named st !! l = None ->
    let c := List.length (objs st) in
    (shallowCopy st (VRef l)).1 = VRef c
    /\ objs (shallowCopy st (VRef l)).2 !! c = Some (OObject (index_props es))
    /\ (index_props es).*1 = nat_to_string <$> seq 0 (List.length es)
    /\ forall i, i < List.length es ->
         GetProp (objs (shallowCopy st (VRef l)).2) c (nat_to_string i) = nth i es VUndefined.
Proof.
  intros st l es Ho Hnamed c.
  unfold shallowCopy, alloc. cbn [fst snd objs assign_source]. fold c.
  assert (Hown : own_enumerable st l = index_props es).
  { unfold own_enumerable, named_props. rewrite Ho, Hnamed. apply app_nil_r. }
  rewrite Hown.
  assert (Hc : (objs st ++ [OObject (index_props es)]) !! c = Some (OObject (index_props es)))
    by (apply list_lookup_middle; reflexivity).
  split; [reflexivity|]. split; [exact Hc|]. split.
  - unfold index_props. rewrite fmap_imap, <- (imap_seq es nat_to_string 0).
    apply imap_ext. reflexivity.
  - intros i Hi. rewrite (GetProp_lookup _ _ _ _ Hc). exact (assoc_index_props_from es 0 i Hi).
Qed.

Lemma shallowCopy_of_an_array_witness :
  let st := Store [OArray [VNumber 1; VNumber 2; VNumber 3]] ∅ ∅ in
  let c := List.length (objs st) in
  (shallowCopy st (VRef 0)).1 = VRef c
  /\ objs (shallowCopy st (VRef 0)).2 !! c
     = Some (OObject (index_props [VNumber 1; VNumber 2; VNumber 3]))
  /\ (index_props [VNumber 1; VNumber 2; VNumber 3]).*1
     = nat_to_string <$> seq 0 (List.length [VNumber 1; VNumber 2; VNumber 3])
  /\ forall i, i < List.length [VNumber 1; VNumber 2; VNumber 3] ->
       GetProp (objs (shallowCopy st (VRef 0)).2) c (nat_to_string i)
       = nth i [VNumber 1; VNumber 2; VNumber 3] VUndefined.
Proof.
  intros st.
  apply (shallowCopy_of_an_array st 0 [VNumber 1; VNumber 2; VNumber 3]); reflexivity.
Defined.

(** ** [Stringify] and [createHookWrapper] *)



(** The component made by [createHookWrapper] shows a hook result that is a
    scalar as [{"result":<literal>,"shouldInvokeFns":true}], and an
    [undefined] result as [{"shouldInvokeFns":true}]. *)
Theorem createHookWrapper_scalar_result :
  forall useMaybeHook call fuel st props result st1,
    useMaybeHook st props = Done (result, st1) ->
    scalar result ->
    result_of (createHookWrapper useMaybeHook call (2 + fuel) st props)
    = Done (Element "div"
              (Some (match scalar_text result with
                     | Some s => text "{'result':" +:+ s +:+ text ",'shouldInvokeFns':true}"
                     | None => text "{'shouldInvokeFns':true}"
                     end))).
Proof.
  intros useMaybeHook call fuel st props result st1 Hhook Hscalar.
  unfold createHookWrapper, alloc. rewrite Hhook. cbn [mbind outcome_bind].
  unfold Stringify, shouldInvokeFns, own_enumerable. cbn [objs].
  rewrite list_lookup_middle by reflexivity.
  replace (ToBoolean (assoc "shouldInvokeFns"
                        [("result", result); ("shouldInvokeFns", VBool true)]))
    with true by reflexivity.
  rewrite (scalar_fields_text call true fuel _ (List.length (objs st1))
             [("result", result); ("shouldInvokeFns", VBool true)]).
  - cbn [mbind outcome_bind result_of]. do 3 f_equal.
    destruct result as [| |[]| | |]; try contradiction;
      unfold self_member, scalar_text, join_comma, QuoteJSONString, Number_toString;
      cbn [omap list_omap fst snd fmap option_fmap option_map mbind option_bind String.concat];
      rewrite ?append_assoc; reflexivity.
  - apply list_lookup_middle. reflexivity.
  - refine (bool_decide_unpack _ _). vm_compute. exact I.
  - apply Forall_cons. split; [exact Hscalar|]. apply Forall_cons. split; [exact I|].
    apply Forall_nil_2.
Qed.

Lemma createHookWrapper_scalar_result_witness :
  result_of (createHookWrapper (fun st _ => Done (VNumber 0, st)) no_calls 2 (Store [] ∅ ∅)
               VUndefined)
  = Done (Element "div" (Some (text "{'result':0,'shouldInvokeFns':true}"))).
Proof.
  apply (createHookWrapper_scalar_result (fun st _ => Done (VNumber 0, st)) no_calls 0
           (Store [] ∅ ∅) VUndefined (VNumber 0) (Store [] ∅ ∅)).
  - reflexivity.
  - exact I.
Defined.



(** ** [mutate] seen through [toJSON] *)

Lemma add_property_object (st st' : store) (l : loc) (fs : list (string * value))
    (key : string) (v : value) :
  objs st !! l = Some (OObject fs) ->
  add_property st l key v = Normal st' ->
  objs st' !! l = Some (OObject (fs ++ [(key, v)])).
Proof.
  intros Ho. unfold add_property. destruct (bool_decide (l ∈ frozen st)); [discriminate|].
  rewrite Ho. intros [= <-]. cbn [objs].
  apply list_lookup_insert_eq. eapply lookup_lt_Some, Ho.
Qed.

(** After [mutate(o)] on a plain object [o] whose properties are scalars,
    [toJSON(o)] is the text of [o] before the call with one more member at
    the end, ["wat<n>":"joe"]. *)
Theorem mutate_then_toJSON :
  forall call invokeFns fuel budget st (l : loc) (fs : list (string * value)),
    objs st !! l = Some (OObject fs) ->
    NoDup fs.*1 ->
    Forall (fun kv => scalar kv.2) fs ->
    l ∉ frozen st ->
    List.length fs < budget ->
    exists n st',
      mutate budget st (VRef l) = Normal st'
      /\ toJSON call (2 + fuel) (objs st) (VRef l) invokeFns
         = Done (Some ("{" +:+ join_comma (omap self_member fs) +:+ "}"), objs st)
      /\ toJSON call (2 + fuel) (objs st') (VRef l) invokeFns
         = Done (Some ("{" +:+ join_comma
                         (omap self_member fs
                            ++ [QuoteJSONString (wat n) +:+ ":" +:+ QuoteJSONString "joe"])
                       +:+ "}"), objs st').
Proof.
  intros call invokeFns fuel budget st l fs Ho Hnd Hfs Hfrozen Hbudget.
  destruct (first_free_wat st l) as (n & Hn & Hfree & Hmin).
  assert (Hadd : exists st', add_property st l (wat n) (VString "joe") = Normal st').
  { unfold add_property. rewrite bool_decide_eq_false_2 by exact Hfrozen. rewrite Ho. eauto. }
  destruct Hadd as [st' Hadd]. exists n, st'.
  assert (Hown : own_enumerable st l = fs) by (unfold own_enumerable; rewrite Ho; reflexivity).
  rewrite Hown in Hn.
  split; [|split].
  - unfold mutate, typeof. rewrite Ho. cbn [String.eqb Ascii.eqb Bool.eqb negb].
    rewrite mutate_loop_is_setProperty_loop.
    rewrite (setProperty_loop_spec budget st l _ 0 n); [exact Hadd | lia | lia | exact Hfree |].
    intros i Hi. apply Hmin. lia.
  - apply scalar_fields_text; assumption.
  - rewrite (scalar_fields_text call invokeFns fuel (objs st') l
               (fs ++ [(wat n, VString "joe")])).
    + rewrite omap_app. reflexivity.
    + eapply add_property_object; eassumption.
    + rewrite fmap_app. apply NoDup_app. split; [exact Hnd|]. split.
      * intros key Hkey Hin. cbn in Hin. apply list_elem_of_singleton in Hin as ->.
        rewrite hasOwn_wat, Hown in Hfree. apply bool_decide_eq_false_1 in Hfree. auto.
      * cbn. apply NoDup_singleton.
    + apply Forall_app. split; [exact Hfs|]. apply Forall_singleton. exact I.
Qed.

Lemma mutate_then_toJSON_witness :
  let st := Store [OObject [("a", VNumber 0); ("wat0", VBool true)]] ∅ ∅ in
  exists n st',
    mutate 3 st (VRef 0) = Normal st'
    /\ toJSON no_calls 2 (objs st) (VRef 0) false
       = Done (Some ("{" +:+ join_comma
                       (omap self_member [("a", VNumber 0); ("wat0", VBool true)]) +:+ "}"),
               objs st)
    /\ toJSON no_calls 2 (objs st') (VRef 0) false
       = Done (Some ("{" +:+ join_comma
                       (omap self_member [("a", VNumber 0); ("wat0", VBool true)]
                          ++ [QuoteJSONString (wat n) +:+ ":" +:+ QuoteJSONString "joe"])
                     +:+ "}"), objs st').
Proof.
  intros st.
  apply (mutate_then_toJSON no_calls false 0 3 st 0 [("a", VNumber 0); ("wat0", VBool true)]).
  - reflexivity.
  - refine (bool_decide_unpack _ _). vm_compute. exact I.
  - repeat (apply Forall_cons; split; [exact I|]). apply Forall_nil_2.
  - apply not_elem_of_empty.
  - cbn. lia.
Defined.
